(** * NodeEditModal: the path-addressed patch of a JSON document

    A verification development for
    [src/features/modals/NodeEditModal/index.tsx]: the helpers
    [getAtPath] and [setAtPath], and the [save] handler that merges the
    form's edits into the selected node and writes the document back;
    then the label [jsonPathToString] gives a path and the effect that
    initialises the two inputs of the form.

    ** Modelling conventions

    - JavaScript values live in a heap of containers addressed by
      location, so that reference identity and in-place assignment
      ([cur[seg] = ...]) are what they are in the source.
    - Property access is modelled on own enumerable data properties:
      members of an object, elements of an array and the named
      properties an assignment may add to it, characters of a string.
      These are the properties the spread syntax copies.  The
      non-enumerable [length] of arrays and strings and the members
      inherited from the built-in prototypes are outside the model:
      it is the semantics of the keys that are not [reserved], and the
      statements about the outcome of a write or of [save] are made
      for paths of such keys ([plain_path]).
    - An array hole reads as [undefined]; nothing in this program tells
      the two apart, so elements are a plain list of values.
    - Numbers are opaque to this code, which at most spells them in
      decimal (as a key, in a label, in an input); integers stand for
      them.
    - The module is an ECMAScript module, hence strict: assigning a
      property on a primitive raises [TypeError]. *)

From Stdlib Require Import Ascii DecimalString DecimalN DecimalZ ZArith NArith Lia.
From stdpp Require Import base strings list numbers.

Open Scope string_scope.
Open Scope list_scope.
Open Scope nat_scope.

(** ** Path segments and property keys *)

(** [Array<string | number>]: one step of a path. *)
Inductive segment :=
  | SNum (n : N)
  | SStr (s : string).

#[global] Instance segment_eq_dec : EqDecision segment.
Proof. solve_decision. Defined.

(** [typeof seg === "number"] *)
Definition is_number (seg : segment) : bool :=
  match seg with SNum _ => true | SStr _ => false end.

(** ToPropertyKey: a number indexes by its canonical decimal spelling. *)
Definition to_key (seg : segment) : string :=
  match seg with
  | SNum n => NilZero.string_of_uint (N.to_uint n)
  | SStr s => s
  end.

#[global] Instance uint_eq_dec : EqDecision Decimal.uint := Decimal.uint_eq_dec.

(** A key that spells a number canonically, as [to_key] does. *)
Definition numeric_index (key : string) : option N :=
  match NilZero.uint_of_string key with
  | Some d =>
      let n := N.of_uint d in
      if decide (N.to_uint n = d) then Some n else None
  | None => None
  end.

(** Array indices are the canonical numeric keys below 2^32 - 1. *)
Definition max_index : N := 4294967295.

Definition array_index (key : string) : option N :=
  match numeric_index key with
  | Some n => if (n <? max_index)%N then Some n else None
  | None => None
  end.

(** ** Reserved names

    The string-named members that ECMAScript 2024, Annex B included,
    gives the prototypes of objects, arrays, strings, numbers and
    booleans, and the [length] of arrays and strings.  On a value that
    has no own property of that name, reading one of them yields the
    inherited member, and assigning [length] of an array or [__proto__]
    of an object does not create a property.  Every other key is plain:
    reading and assigning it concerns own data properties only. *)
Definition reserved : list string :=
  [ "length"; "__proto__"; "constructor";
    "__defineGetter__"; "__defineSetter__"; "__lookupGetter__"; "__lookupSetter__";
    "hasOwnProperty"; "isPrototypeOf"; "propertyIsEnumerable";
    "toLocaleString"; "toString"; "valueOf";
    "at"; "concat"; "copyWithin"; "entries"; "every"; "fill"; "filter"; "find";
    "findIndex"; "findLast"; "findLastIndex"; "flat"; "flatMap"; "forEach";
    "includes"; "indexOf"; "join"; "keys"; "lastIndexOf"; "map"; "pop"; "push";
    "reduce"; "reduceRight"; "reverse"; "shift"; "slice"; "some"; "sort"; "splice";
    "toReversed"; "toSorted"; "toSpliced"; "unshift"; "values"; "with";
    "anchor"; "big"; "blink"; "bold"; "charAt"; "charCodeAt"; "codePointAt";
    "endsWith"; "fixed"; "fontcolor"; "fontsize"; "isWellFormed"; "italics"; "link";
    "localeCompare"; "match"; "matchAll"; "normalize"; "padEnd"; "padStart";
    "repeat"; "replace"; "replaceAll"; "search"; "small"; "split"; "startsWith";
    "strike"; "sub"; "substr"; "substring"; "sup"; "toLocaleLowerCase";
    "toLocaleUpperCase"; "toLowerCase"; "toUpperCase"; "toWellFormed"; "trim";
    "trimEnd"; "trimLeft"; "trimRight"; "trimStart";
    "toExponential"; "toFixed"; "toPrecision" ].

(** A key that is not reserved; a number never is. *)
Definition plain_key (key : string) : bool :=
  forallb (λ r, negb (String.eqb key r)) reserved.

(** A path with plain keys only. *)
Definition plain_path (path : list segment) : bool :=
  forallb (λ seg, plain_key (to_key seg)) path.

(** ** Ordered property lists

    Own properties of an ordinary object, in the order the language
    enumerates them: array-index keys ascending, then the other keys in
    the order they were created. *)

Section fields.
Context {A : Type}.

Fixpoint fields_get (key : string) (fs : list (string * A)) : option A :=
  match fs with
  | [] => None
  | (k, v) :: fs' => if decide (k = key) then Some v else fields_get key fs'
  end.

(** [Object.prototype.hasOwnProperty.call(o, key)] *)
Definition fields_has (key : string) (fs : list (string * A)) : bool :=
  bool_decide (is_Some (fields_get key fs)).

Fixpoint fields_replace (key : string) (v : A) (fs : list (string * A))
  : list (string * A) :=
  match fs with
  | [] => []
  | (k, w) :: fs' =>
      if decide (k = key) then (k, v) :: fs'
      else (k, w) :: fields_replace key v fs'
  end.

(** A new array-index key goes before the first key that is not an
    index or is a larger one. *)
Fixpoint fields_insert_index (i : N) (key : string) (v : A)
    (fs : list (string * A)) : list (string * A) :=
  match fs with
  | [] => [(key, v)]
  | (k, w) :: fs' =>
      match array_index k with
      | Some j =>
          if (j <? i)%N then (k, w) :: fields_insert_index i key v fs'
          else (key, v) :: (k, w) :: fs'
      | None => (key, v) :: (k, w) :: fs'
      end
  end.

(** [o[key] = v] on an ordinary object. *)
Definition fields_put (key : string) (v : A) (fs : list (string * A))
  : list (string * A) :=
  if fields_has key fs then fields_replace key v fs
  else match array_index key with
       | Some i => fields_insert_index i key v fs
       | None => fs ++ [(key, v)]
       end.

Definition keys (fs : list (string * A)) : list string := fs.*1.
End fields.

(** ** Containers *)

(** What a location holds: an array (elements, plus named properties
    that an assignment with a non-index key created) or an ordinary
    object. *)
Inductive node (A : Type) :=
  | NArr (elems : list A) (props : list (string * A))
  | NObj (fields : list (string * A)).
Arguments NArr {A} elems props.
Arguments NObj {A} fields.

Section node.
Context {A : Type} (undef : A).

(** [a[i] = v]: past the end the array grows, the gap reads [undefined]. *)
Definition elems_set (es : list A) (i : nat) (v : A) : list A :=
  if decide (i < length es) then <[i:=v]> es
  else es ++ replicate (i - length es) undef ++ [v].

(** [c[key]] on a container. *)
Definition node_get (c : node A) (key : string) : A :=
  match c with
  | NObj fs => default undef (fields_get key fs)
  | NArr es ps =>
      match array_index key with
      | Some i => default undef (es !! N.to_nat i)
      | None => default undef (fields_get key ps)
      end
  end.

(** [c[key] = v] on a container. *)
Definition node_put (c : node A) (key : string) (v : A) : node A :=
  match c with
  | NObj fs => NObj (fields_put key v fs)
  | NArr es ps =>
      match array_index key with
      | Some i => NArr (elems_set es (N.to_nat i) v) ps
      | None => NArr es (fields_put key v ps)
      end
  end.

Definition node_is_array (c : node A) : bool :=
  match c with NArr _ _ => true | NObj _ => false end.
End node.

(** The characters of a string, each a one-character string. *)
Fixpoint string_chars (s : string) : list string :=
  match s with
  | EmptyString => []
  | String c s' => String c EmptyString :: string_chars s'
  end.

(** Index-keyed entries [0 ↦ x0, 1 ↦ x1, ...]. *)
Definition indexed {A B} (f : A → B) (l : list A) : list (string * B) :=
  imap (λ i x, (to_key (SNum (N.of_nat i)), f x)) l.


(** ** Values and the heap *)

Abbreviation loc := nat.

(** A JavaScript value: a primitive, or a reference to a container. *)
Inductive val :=
  | VUndef
  | VNull
  | VBool (b : bool)
  | VNum (n : Z)
  | VStr (s : string)
  | VRef (l : loc).

#[global] Instance val_eq_dec : EqDecision val.
Proof. solve_decision. Defined.

#[global] Instance val_inhabited : Inhabited val := populate VUndef.

Abbreviation obj := (node val).
Abbreviation heap := (list obj).

Inductive error := TypeError | SyntaxError | PersistError.

(** The outcome of a statement that may throw. *)
Inductive result (A : Type) :=
  | Ok (a : A)
  | Throw (e : error).
Arguments Ok {A} a.
Arguments Throw {A} e.

#[global] Instance result_ret : MRet result := λ A a, Ok a.
#[global] Instance result_bind : MBind result := λ A B f m,
  match m with Ok a => f a | Throw e => Throw e end.

(** [v == null] *)
Definition nullish (v : val) : bool :=
  match v with VUndef | VNull => true | _ => false end.

(** [Array.isArray(v)] *)
Definition isArray (h : heap) (v : val) : bool :=
  match v with
  | VRef l => match h !! l with Some c => node_is_array c | None => false end
  | _ => false
  end.

(** The i-th character of a string, as a value. *)
Definition char_at {A} (str : string → A) (undef : A) (s : string) (key : string) : A :=
  match numeric_index key with
  | Some i => default undef (str <$> string_chars s !! N.to_nat i)
  | None => undef
  end.

(** [v[key]] for a value that is neither [null] nor [undefined]: the
    own property, [undefined] where there is none.  This is what the
    code reads for a plain key, and for a reserved one that the value
    has as an own property; a reserved key that is not an own property
    reads an inherited member, which is not modelled. *)
Definition own_get (h : heap) (v : val) (key : string) : val :=
  match v with
  | VRef l => match h !! l with Some c => node_get VUndef c key | None => VUndef end
  | VStr s => char_at VStr VUndef s key
  | _ => VUndef
  end.

(** [v[seg]]: reading a property of [null] or [undefined] throws. *)
Definition getProp (h : heap) (v : val) (seg : segment) : result val :=
  if nullish v then Throw TypeError else Ok (own_get h v (to_key seg)).

(** [v[seg] = x]: only a container takes the assignment, which sets
    or creates an own property.  This is what the code does for a
    plain key; [length] on an array and [__proto__] on an object that
    has no such own property go to the language's own handling, which
    is not modelled. *)
Definition putProp (h : heap) (v : val) (seg : segment) (x : val) : result heap :=
  match v with
  | VRef l =>
      match h !! l with
      | Some c => Ok (<[l := node_put VUndef c (to_key seg) x]> h)
      | None => Throw TypeError
      end
  | _ => Throw TypeError
  end.

(** The own enumerable properties of a value, in enumeration order:
    what [{...v}] copies. *)
Definition own_props (h : heap) (v : val) : list (string * val) :=
  match v with
  | VRef l =>
      match h !! l with
      | Some (NObj fs) => fs
      | Some (NArr es ps) => indexed id es ++ ps
      | None => []
      end
  | VStr s => indexed VStr (string_chars s)
  | _ => []
  end.

Definition elems_of (h : heap) (v : val) : list val :=
  match v with
  | VRef l => match h !! l with Some (NArr es _) => es | _ => [] end
  | _ => []
  end.

(** A new container gets the next free location. *)
Definition alloc (h : heap) (c : obj) : val * heap := (VRef (length h), h ++ [c]).

(** [v.slice()]: a new array with the elements of [v]. *)
Definition slice (h : heap) (v : val) : val * heap := alloc h (NArr (elems_of h v) []).

(** [{...v}]: a new object with the own enumerable properties of [v]. *)
Definition spread (h : heap) (v : val) : val * heap := alloc h (NObj (own_props h v)).

(** [Array.isArray(v) ? v.slice() : {...v}] *)
Definition shallow_copy (h : heap) (v : val) : val * heap :=
  if isArray h v then slice h v else spread h v.

(** [typeof nextSeg === "number" ? [] : {}] *)
Definition empty_for (nextSeg : segment) : obj :=
  if is_number nextSeg then NArr [] [] else NObj [].

(** ** [setAtPath] and [getAtPath] *)

(** The loop of [setAtPath] from segment [seg] on, [rest] being the
    segments after it, and then the assignment of the last segment.
    [cur] is the container the loop stands on. *)
Fixpoint setAtPath_loop (h : heap) (cur : val) (seg : segment)
    (rest : list segment) (value : val) : result heap :=
  match rest with
  | [] =>
      (* cur[last] = value *)
      putProp h cur seg value
  | nextSeg :: rest' =>
      (* if (cur[seg] == null) cur[seg] = typeof nextSeg === "number" ? [] : {} *)
      c ← getProp h cur seg;
      h1 ← (if nullish c then
              let '(fresh, h') := alloc h (empty_for nextSeg) in
              putProp h' cur seg fresh
            else Ok h);
      (* cur[seg] = Array.isArray(cur[seg]) ? cur[seg].slice() : { ...cur[seg] } *)
      c1 ← getProp h1 cur seg;
      let '(copy, h2) := shallow_copy h1 c1 in
      h3 ← putProp h2 cur seg copy;
      (* cur = cur[seg] *)
      cur' ← getProp h3 cur seg;
      setAtPath_loop h3 cur' nextSeg rest' value
  end.

(** [setAtPath(root, path, value)]: the value for the empty path;
    otherwise a shallow copy of the root, in which the loop has run. *)
Definition setAtPath (h : heap) (root : val) (path : list segment) (value : val)
  : result (val * heap) :=
  match path with
  | [] => Ok (value, h)
  | seg :: rest =>
      let '(result, h1) := shallow_copy h root in
      h2 ← setAtPath_loop h1 result seg rest value;
      Ok (result, h2)
  end.

(** The loop of [getAtPath]: [undefined] where [cur] is [null] or
    [undefined], else one more step. *)
Fixpoint getAtPath_loop (h : heap) (cur : val) (path : list segment) : result val :=
  match path with
  | [] => Ok cur
  | seg :: rest =>
      if nullish cur then Ok VUndef
      else c ← getProp h cur seg; getAtPath_loop h c rest
  end.

(** [getAtPath(root, path)] *)
Definition getAtPath (h : heap) (root : val) (path : list segment) : result val :=
  match path with
  | [] => Ok root
  | _ => getAtPath_loop h root path
  end.


(** ** Values as trees

    The content of a value with the sharing forgotten: what two
    deep-equal values have in common, and what serialisation reads. *)

#[warnings="-register-all"]
Inductive tree :=
  | TUndef
  | TNull
  | TBool (b : bool)
  | TNum (n : Z)
  | TStr (s : string)
  | TNode (c : node tree).

Module Tree.

Definition nullish (t : tree) : bool :=
  match t with TUndef | TNull => true | _ => false end.

Definition isArray (t : tree) : bool :=
  match t with TNode c => node_is_array c | _ => false end.

Definition get (t : tree) (key : string) : tree :=
  match t with
  | TNode c => node_get TUndef c key
  | TStr s => char_at TStr TUndef s key
  | _ => TUndef
  end.

Definition put (t : tree) (key : string) (x : tree) : tree :=
  match t with
  | TNode c => TNode (node_put TUndef c key x)
  | _ => t
  end.

Definition own_props (t : tree) : list (string * tree) :=
  match t with
  | TNode (NObj fs) => fs
  | TNode (NArr es ps) => indexed id es ++ ps
  | TStr s => indexed TStr (string_chars s)
  | _ => []
  end.

Definition copy_of (t : tree) : node tree :=
  match t with
  | TNode (NArr es _) => NArr es []
  | _ => NObj (own_props t)
  end.

Definition shallow_copy (t : tree) : tree := TNode (copy_of t).

Definition empty_for (nextSeg : segment) : tree :=
  TNode (if is_number nextSeg then NArr [] [] else NObj []).

(** The content the loop of [setAtPath] leaves in [cur]. *)
Fixpoint descend (cur : tree) (seg : segment) (rest : list segment)
    (value : tree) : tree :=
  match rest with
  | [] => put cur (to_key seg) value
  | nextSeg :: rest' =>
      let c := get cur (to_key seg) in
      let c1 := if nullish c then empty_for nextSeg else c in
      put cur (to_key seg) (descend (shallow_copy c1) nextSeg rest' value)
  end.

Definition setAtPath (root : tree) (path : list segment) (value : tree) : tree :=
  match path with
  | [] => value
  | seg :: rest => descend (shallow_copy root) seg rest value
  end.

Fixpoint getAtPath (root : tree) (path : list segment) : tree :=
  match path with
  | [] => root
  | seg :: rest =>
      if nullish root then TUndef else getAtPath (get root (to_key seg)) rest
  end.

End Tree.

(** Two property lists, or two containers, related entry by entry. *)
Inductive field_rel {A B} (R : A → B → Prop) : string * A → string * B → Prop :=
  | field_rel_intro k a b : R a b → field_rel R (k, a) (k, b).

Inductive node_rel {A B} (R : A → B → Prop) : node A → node B → Prop :=
  | node_rel_arr es es' ps ps' :
      Forall2 R es es' → Forall2 (field_rel R) ps ps' →
      node_rel R (NArr es ps) (NArr es' ps')
  | node_rel_obj fs fs' :
      Forall2 (field_rel R) fs fs' → node_rel R (NObj fs) (NObj fs').

(** [repr h v t]: in heap [h], value [v] has content [t]. *)
Inductive repr (h : heap) : val → tree → Prop :=
  | repr_undef : repr h VUndef TUndef
  | repr_null : repr h VNull TNull
  | repr_bool b : repr h (VBool b) (TBool b)
  | repr_num n : repr h (VNum n) (TNum n)
  | repr_str s : repr h (VStr s) (TStr s)
  | repr_ref l c tc :
      h !! l = Some c → node_rel (repr h) c tc → repr h (VRef l) (TNode tc).

(** Every container of [h] is still there, as it was, in [h']. *)
Definition unchanged (h h' : heap) : Prop :=
  ∀ l c, h !! l = Some c → h' !! l = Some c.

(** Two values, each in its heap, are deep-equal. *)
Definition deep_equal (h1 : heap) (v1 : val) (h2 : heap) (v2 : val) : Prop :=
  ∃ t, repr h1 v1 t ∧ repr h2 v2 t.

(** What [JSON.parse] yields: no [undefined], arrays without named
    properties. *)
Fixpoint is_json (t : tree) : bool :=
  match t with
  | TUndef => false
  | TNode (NArr es ps) =>
      forallb is_json es && match ps with [] => true | _ => false end
  | TNode (NObj fs) => forallb (λ kv, is_json kv.2) fs
  | _ => true
  end.


(** ** Between text and heap *)

(** Allocating the elements of a list one after the other. *)
Definition alloc_all {A B} (f : heap → A → B * heap) : heap → list A → list B * heap :=
  fix go (h : heap) (xs : list A) : list B * heap :=
    match xs with
    | [] => ([], h)
    | x :: xs' =>
        let '(y, h1) := f h x in
        let '(ys, h2) := go h1 xs' in
        (y :: ys, h2)
    end.

(** The value [JSON.parse] builds for a parsed document: every
    container of the tree gets a location of its own. *)
Fixpoint alloc_tree (h : heap) (t : tree) : val * heap :=
  let alloc_field (h : heap) (kv : string * tree) : (string * val) * heap :=
    let '(v, h') := alloc_tree h kv.2 in ((kv.1, v), h') in
  match t with
  | TUndef => (VUndef, h)
  | TNull => (VNull, h)
  | TBool b => (VBool b, h)
  | TNum n => (VNum n, h)
  | TStr s => (VStr s, h)
  | TNode (NArr es ps) =>
      let '(vs, h1) := alloc_all alloc_tree h es in
      let '(qs, h2) := alloc_all alloc_field h1 ps in
      alloc h2 (NArr vs qs)
  | TNode (NObj fs) =>
      let '(vs, h1) := alloc_all alloc_field h fs in
      alloc h1 (NObj vs)
  end.

(** The content [JSON.stringify] walks.  [stack] holds the containers
    being serialised; meeting one of them again is the circular
    structure that [JSON.stringify] refuses.  The fuel bounds the depth
    of the walk; the number of containers of the heap is enough. *)
Fixpoint reify (fuel : nat) (stack : list loc) (h : heap) (v : val) : option tree :=
  match v with
  | VUndef => Some TUndef
  | VNull => Some TNull
  | VBool b => Some (TBool b)
  | VNum n => Some (TNum n)
  | VStr s => Some (TStr s)
  | VRef l =>
      if decide (l ∈ stack) then None
      else match fuel with
           | 0 => None
           | S fuel' =>
               let go := reify fuel' (l :: stack) h in
               let go_field (kv : string * val) := t ← go kv.2; Some (kv.1, t) in
               match h !! l with
               | Some (NArr es ps) =>
                   ts ← mapM go es; qs ← mapM go_field ps; Some (TNode (NArr ts qs))
               | Some (NObj fs) =>
                   qs ← mapM go_field fs; Some (TNode (NObj qs))
               | None => None
               end
           end
  end.

Definition content (h : heap) (v : val) : option tree := reify (S (length h)) [] h v.

(** ** Rows and nodes *)

(** Modelled from the spec: [NodeRow] of [types/graph], one field of a
    node as the graph shows it, with the three attributes the
    specification gives a row.  [row_type] is the tag of the value's
    kind; ["object"] and ["array"] mark nested containers, any other tag
    a primitive. *)
Record NodeRow := {
  row_key : option string;
  row_value : val;
  row_type : string;
}.

(** Modelled from the spec: [NodeData] of [types/graph], with the path
    and the rows that the specification gives a node and that [save]
    reads; either may be absent, as [save] provides for. *)
Record NodeData := {
  node_path : option (list segment);
  node_text : option (list NodeRow);
}.

(** A key that is neither [null] nor empty. *)
Definition truthy_key (k : option string) : option string :=
  match k with
  | Some s => if decide (s = "") then None else Some s
  | None => None
  end.

(** [row.type !== "array" && row.type !== "object"] *)
Definition is_primitive_row (row : NodeRow) : bool :=
  negb (bool_decide (row_type row = "array")) && negb (bool_decide (row_type row = "object")).

(** [v] as a condition. *)
Definition truthy (v : val) : bool :=
  match v with
  | VUndef | VNull => false
  | VBool b => b
  | VNum n => negb (n =? 0)%Z
  | VStr s => negb (bool_decide (s = ""))
  | VRef _ => true
  end.

(** [typeof v] *)
Definition typeof (v : val) : string :=
  match v with
  | VUndef => "undefined"
  | VNull => "object"
  | VBool _ => "boolean"
  | VNum _ => "number"
  | VStr _ => "string"
  | VRef _ => "object"
  end.

(** [{ ...a, ...b }] as a property list. *)
Definition merge_fields (a b : list (string * val)) : list (string * val) :=
  fold_left (λ acc kv, fields_put kv.1 kv.2 acc) b a.

(** ** The steps of [save] *)

(** [updates]: built from the two inputs, which are always strings. *)
Definition updates_of (name color : string) : list (string * val) :=
  fields_put "color" (VStr color) (fields_put "name" (VStr name) []).

(** [existing]: the fold of the rows into an object.  Each step is the
    assignment [acc[row.key] = row.value] on an ordinary object, which
    sets an own property for every key but [__proto__]. *)
Definition existing_of (rows : list NodeRow) : list (string * val) :=
  fold_left
    (λ acc row,
       if is_primitive_row row then
         match truthy_key (row_key row) with
         | Some k => fields_put k (row_value row) acc
         | None => acc
         end
       else acc)
    rows [].

(** The condition of the branch: a non-null, non-array object. *)
Definition is_plain_object (h : heap) (v : val) : bool :=
  truthy v && bool_decide (typeof v = "object") && negb (isArray h v).

(** [replacement], as a property list. *)
Definition replacement_of (h : heap) (currentAtPath : val) (rows : list NodeRow)
    (updates : list (string * val)) : list (string * val) :=
  if is_plain_object h currentAtPath then
    merge_fields (own_props h currentAtPath) updates
  else
    merge_fields (existing_of rows) updates.

(** The callback of [map] that builds [updatedText]. *)
Definition update_row (replacement : list (string * val)) (row : NodeRow) : NodeRow :=
  match truthy_key (row_key row) with
  | None => row
  | Some k =>
      if fields_has k replacement then
        if is_primitive_row row then
          {| row_key := row_key row;
             row_value := default VUndef (fields_get k replacement);
             row_type := row_type row |}
        else row
      else row
  end.

Definition updatedText_of (replacement : list (string * val)) (rows : list NodeRow)
  : list NodeRow :=
  map (update_row replacement) rows.

(** ** The stores and the calls made to them *)

Inductive event :=
  | GetContents
  | SetSelectedNode (node : NodeData)
  | SetContents (text : string)
  | SetVisible (modal : string) (flag : bool)
  | ConsoleError (e : error).

Record Store := {
  js_heap : heap;
  contents : string;
  selectedNode : option NodeData;
  visible : list (string * bool);
  trace : list event;
}.

(** A computation: it reads and writes the stores, and returns or throws. *)
Definition M (A : Type) : Type := Store → result A * Store.

#[global] Instance M_ret : MRet M := λ A a st, (Ok a, st).
#[global] Instance M_bind : MBind M := λ A B f m st,
  match m st with
  | (Ok a, st') => f a st'
  | (Throw e, st') => (Throw e, st')
  end.

Definition throw {A} (e : error) : M A := λ st, (Throw e, st).

(** [try { body } catch (err) { handler(err) }] *)
Definition try_catch {A} (body : M A) (handler : error → M A) : M A := λ st,
  match body st with
  | (Ok a, st') => (Ok a, st')
  | (Throw e, st') => handler e st'
  end.

Definition log (ev : event) : M unit := λ st,
  (Ok (),
   {| js_heap := js_heap st; contents := contents st; selectedNode := selectedNode st;
      visible := visible st; trace := trace st ++ [ev] |}).

Definition get_contents : M string := λ st, (Ok (contents st), st).

Definition get_heap : M heap := λ st, (Ok (js_heap st), st).

Definition modify (f : Store → Store) : M unit := λ st, (Ok (), f st).

Definition set_heap (h : heap) : M unit :=
  modify (λ st,
    {| js_heap := h; contents := contents st; selectedNode := selectedNode st;
       visible := visible st; trace := trace st |}).

Definition lift {A} (r : result A) : M A := λ st, (r, st).

(** [{ ... }]: a new object with the given properties. *)
Definition new_object (fs : list (string * val)) : M val :=
  h ← get_heap;
  let '(v, h') := alloc h (NObj fs) in
  set_heap h';; mret v.

Section save.
(** [JSON.parse] and [JSON.stringify], between a text and the content
    of a value. *)
Context (JSON_parse : string → option tree) (JSON_print : tree → string).

(** Whether the store accepts the text handed to [setContents]. *)
Context (persists : string → bool).

(** Modelled from the spec: [useFile.getState().getContents] returns
    the text of the document. *)
Definition getContents : M string :=
  log GetContents;; get_contents.

(** Modelled from the spec: [useFile.getState().setContents] persists
    a new document text and may fail; the text in the store changes
    when it succeeds. *)
Definition setContents (text : string) : M unit :=
  log (SetContents text);;
  if persists text then
    modify (λ st,
      {| js_heap := js_heap st; contents := text; selectedNode := selectedNode st;
         visible := visible st; trace := trace st |})
  else throw PersistError.

(** Modelled from the spec: [useGraph.getState().setSelectedNode]
    replaces the selected node. *)
Definition setSelectedNode (node : NodeData) : M unit :=
  log (SetSelectedNode node);;
  modify (λ st,
    {| js_heap := js_heap st; contents := contents st; selectedNode := Some node;
       visible := visible st; trace := trace st |}).

(** Modelled from the spec: [setVisible] of [useModal] toggles one
    modal. *)
Definition setVisible (modal : string) (flag : bool) : M unit :=
  log (SetVisible modal flag);;
  modify (λ st,
    {| js_heap := js_heap st; contents := contents st; selectedNode := selectedNode st;
       visible := fields_put modal flag (visible st); trace := trace st |}).

(** [console.error("Failed to save node", err)] *)
Definition console_error (e : error) : M unit := log (ConsoleError e).

Definition parse (raw : string) : M val :=
  match JSON_parse raw with
  | None => throw SyntaxError
  | Some t =>
      h ← get_heap;
      let '(v, h') := alloc_tree h t in
      set_heap h';; mret v
  end.

Definition stringify (v : val) : M string :=
  h ← get_heap;
  match content h v with
  | Some t => mret (JSON_print t)
  | None => throw TypeError
  end.

(** [save], for the node, name and color the component rendered with. *)
Definition save (node : option NodeData) (name color : string) : M unit :=
  match node with
  | None => mret ()
  | Some selected =>
      try_catch
        (raw ← getContents;
         json ← parse raw;
         let path := default [] (node_path selected) in
         let rows := default [] (node_text selected) in
         updates ← new_object (updates_of name color);
         h ← get_heap;
         currentAtPath ← lift (getAtPath h json path);
         replacement ← new_object (replacement_of h currentAtPath rows (own_props h updates));
         h ← get_heap;
         let updatedText := updatedText_of (own_props h replacement) rows in
         setSelectedNode {| node_path := node_path selected; node_text := Some updatedText |};;
         h ← get_heap;
         '(updatedJson, h') ← lift (setAtPath h json path replacement);
         set_heap h';;
         text ← stringify updatedJson;
         setContents text;;
         setVisible "NodeEditModal" false;;
         setVisible "NodeModal" true)
        console_error
  end.
End save.



(** ** The label of a path *)

(** The quotation mark, character 34. *)
Definition dquote : string := String (ascii_of_nat 34) "".

(** The callback of [map]: a number stays a number, which [join] then
    spells in decimal, as a property key is; a string is put between
    quotation marks as it is, nothing in it escaped. *)
Definition segment_label (seg : segment) : string :=
  match seg with
  | SNum n => to_key (SNum n)
  | SStr s => dquote +:+ s +:+ dquote
  end.

(** [jsonPathToString(path)]: ["$"] for no path and for the empty one,
    else the labels joined by ["]["], between ["$["] and ["]"]. *)
Definition jsonPathToString (path : option (list segment)) : string :=
  match path with
  | None | Some [] => "$"
  | Some p => "$[" +:+ String.concat "][" (segment_label <$> p) +:+ "]"
  end.

(** ** The inputs of the form *)

(** [String(v)] for a primitive.  A row holds a primitive or nothing;
    the conversion of a container, which runs the [toString] it finds,
    has no model here. *)
Definition to_String (v : val) : option string :=
  match v with
  | VUndef => Some "undefined"
  | VNull => Some "null"
  | VBool b => Some (if b then "true" else "false")
  | VNum n => Some (NilZero.string_of_int (Z.to_int n))
  | VStr s => Some s
  | VRef _ => None
  end.

(** [rows.find(r => r.key === key)] *)
Definition find_row (key : string) (rows : list NodeRow) : option NodeRow :=
  List.find (λ r, bool_decide (row_key r = Some key)) rows.

(** [row?.value != null ? String(row.value) : ""] *)
Definition input_of (row : option NodeRow) : option string :=
  match row with
  | Some r => if nullish (row_value r) then Some "" else to_String (row_value r)
  | None => Some ""
  end.

(** The effect that runs when the modal opens or the selection changes:
    the values it gives the states [name] and [color]. *)
Definition initial_inputs (selectedNode : option NodeData) : option (string * string) :=
  match selectedNode with
  | None => Some ("", "")
  | Some node =>
      let nRow := node_text node ≫= find_row "name" in
      let cRow := node_text node ≫= find_row "color" in
      name ← input_of nRow;
      color ← input_of cRow;
      Some (name, color)
  end.


(** ** Vocabulary of the statements *)

(** What a shallow copy holds. *)
Definition copy_of (h : heap) (v : val) : obj :=
  if isArray h v then NArr (elems_of h v) [] else NObj (own_props h v).

(** The child the loop descends into, and the heap it leaves: a missing
    child is created, then copied; an existing one is copied. *)
Definition step_heap (h : heap) (cur : loc) (c : obj) (seg nextSeg : segment)
  : loc * heap :=
  let cv := node_get VUndef c (to_key seg) in
  if nullish cv then
    (S (length h),
     <[cur := node_put VUndef c (to_key seg) (VRef (S (length h)))]>
       (h ++ [empty_for nextSeg; empty_for nextSeg]))
  else
    (length h,
     <[cur := node_put VUndef c (to_key seg) (VRef (length h))]>
       (h ++ [copy_of h cv])).

(** The content of a container created for the segments [seg :: rest]
    of a path that ends on [value]: empty, but for the entry at [seg]. *)
Fixpoint chain (seg : segment) (rest : list segment) (value : tree) : tree :=
  Tree.put (Tree.empty_for seg) (to_key seg)
    match rest with
    | [] => value
    | nextSeg :: rest' => chain nextSeg rest' value
    end.

(** The child the loop finds or creates. *)
Definition or_empty (c : tree) (nextSeg : segment) : tree :=
  if Tree.nullish c then Tree.empty_for nextSeg else c.

(** Indexing each segment in order, with nothing to guard it. *)
Definition index_all (h : heap) (root : val) (path : list segment) : result val :=
  fold_left (λ acc seg, cur ← acc; getProp h cur seg) path (Ok root).

(** [copied_along h orig h' new seg rest value]: along the path
    [seg :: rest], the value [new] of heap [h'] is a copy of the value
    [orig] of heap [h].  At each step it is a container that [h] does
    not have, every property off the path holds the very value the
    original holds there, and the path ends on [value]. *)
Fixpoint copied_along (h : heap) (orig : val) (h' : heap) (new : val)
    (seg : segment) (rest : list segment) (value : val) : Prop :=
  ∃ (l : loc) (c : obj),
    new = VRef l ∧ length h ≤ l ∧ h' !! l = Some c ∧
    (∀ key, key ≠ to_key seg → node_get VUndef c key = own_get h orig key) ∧
    match rest with
    | [] => node_get VUndef c (to_key seg) = value
    | nextSeg :: rest' =>
        copied_along h (own_get h orig (to_key seg)) h'
          (node_get VUndef c (to_key seg)) nextSeg rest' value
    end.



(** [JSON.parse] on one property. *)
Definition alloc_field (h : heap) (kv : string * tree) : (string * val) * heap :=
  let '(v, h') := alloc_tree h kv.2 in ((kv.1, v), h').

(** The number of nodes of a tree. *)
Fixpoint tree_size (t : tree) : nat :=
  match t with
  | TNode (NArr es ps) =>
      S (list_sum (List.map tree_size es)
         + list_sum (List.map (λ kv : string * tree, tree_size kv.2) ps))
  | TNode (NObj fs) =>
      S (list_sum (List.map (λ kv : string * tree, tree_size kv.2) fs))
  | _ => 1
  end.

(** The row that [existing] takes its value for [k] from: the last
    primitive row with that key. *)
Definition feeds (k : string) (row : NodeRow) : bool :=
  is_primitive_row row && bool_decide (truthy_key (row_key row) = Some k).

(** ** The scenario of the specification *)

(** [{"user":{"name":"Bob","tags":["x"]}}] *)
Definition doc_Bob : tree :=
  TNode (NObj [("user", TNode (NObj [("name", TStr "Bob");
                                     ("tags", TNode (NArr [TStr "x"] []))]))]).

(** [{"user":{"name":"Alice","tags":["x"],"color":"red"}}] *)
Definition doc_Alice : tree :=
  TNode (NObj [("user", TNode (NObj [("name", TStr "Alice");
                                     ("tags", TNode (NArr [TStr "x"] []));
                                     ("color", TStr "red")]))]).

Definition row_name (v : string) : NodeRow :=
  {| row_key := Some "name"; row_value := VStr v; row_type := "primitive" |}.

Definition row_tags : NodeRow :=
  {| row_key := Some "tags"; row_value := VUndef; row_type := "array" |}.

Definition node_user (rows : list NodeRow) : NodeData :=
  {| node_path := Some [SStr "user"]; node_text := Some rows |}.

(** Heaps of small documents. *)

(** The parsed document of the scenario. *)
Definition heap_Bob : heap :=
  [NArr [VStr "x"] []; NObj [("name", VStr "Bob"); ("tags", VRef 0)]; NObj [("user", VRef 1)]].


(** [{"a":"hi"}] *)
Definition heap_hi : heap := [NObj [("a", VStr "hi")]].

(** A store at the start of the scenario. *)
Definition store_Bob : Store :=
  {| js_heap := []; contents := "{}"; selectedNode := Some (node_user [row_name "Bob"; row_tags]);
     visible := [("NodeEditModal", true)]; trace := [] |}.


(** ** Vocabulary of the further properties *)

(** Each segment between brackets of its own, one group after the other. *)
Definition bracketed (p : list segment) : string :=
  foldr (λ seg acc, "[" +:+ segment_label seg +:+ "]" +:+ acc) "" p.

(** The character [c] does not occur in [s]. *)
Fixpoint free_of (c : ascii) (s : string) : bool :=
  match s with
  | EmptyString => true
  | String a s' => negb (bool_decide (a = c)) && free_of c s'
  end.

(** No string segment of the path holds a quotation mark. *)
Definition quote_free (p : list segment) : bool :=
  forallb (λ seg, match seg with
                  | SStr s => free_of (ascii_of_nat 34) s
                  | SNum _ => true
                  end) p.

(** The content of a primitive value. *)
Definition prim_tree (v : val) : tree :=
  match v with
  | VNull => TNull
  | VBool b => TBool b
  | VNum n => TNum n
  | VStr s => TStr s
  | _ => TUndef
  end.

(** A reference to a container. *)
Definition is_ref (v : val) : bool :=
  match v with VRef _ => true | _ => false end.

(** Every row holds a primitive, or nothing. *)
Definition rows_primitive (rows : list NodeRow) : bool :=
  forallb (λ row, negb (is_ref (row_value row))) rows.

(** Every row with a key has a plain one. *)
Definition rows_plain (rows : list NodeRow) : bool :=
  forallb (λ row, match row_key row with
                  | Some k => plain_key k
                  | None => true
                  end) rows.

(** An object that is not an array. *)
Definition is_object (t : tree) : bool :=
  match t with TNode (NObj _) => true | _ => false end.

(** The content of [existing]: the same fold, over the content of the
    values. *)
Definition existing_tree (rows : list NodeRow) : list (string * tree) :=
  fold_left
    (λ acc row,
       if is_primitive_row row then
         match truthy_key (row_key row) with
         | Some k => fields_put k (prim_tree (row_value row)) acc
         | None => acc
         end
       else acc)
    rows [].

(** The base of the merge: the object at the path, or else the object
    of the rows. *)
Definition base_of (cur : tree) (rows : list NodeRow) : list (string * tree) :=
  match cur with
  | TNode (NObj tfs) => tfs
  | _ => existing_tree rows
  end.

(** The base with the two edits merged in. *)
Definition edited (name color : string) (base : list (string * tree))
  : list (string * tree) :=
  fields_put "color" (TStr color) (fields_put "name" (TStr name) base).

(** The document [save] hands to [JSON.stringify], for a node whose
    path has plain keys or resolves to an object of the document, and
    whose rows, where they are folded into the base, have plain keys. *)
Definition saved_document (doc : tree) (selected : NodeData) (name color : string) : tree :=
  let path := default [] (node_path selected) in
  let rows := default [] (node_text selected) in
  Tree.setAtPath doc path
    (TNode (NObj (edited name color (base_of (Tree.getAtPath doc path) rows)))).

(** The nodes the statements on the document written are made for.
    Either the path resolves to an object of the document: its segments
    are then own keys all the way, and the rows are not folded.  Or the
    path has plain keys, and the rows, which are then folded into the
    base of the merge, hold primitives under plain keys. *)
Definition node_in_model (doc : tree) (selected : NodeData) : bool :=
  let path := default [] (node_path selected) in
  let rows := default [] (node_text selected) in
  is_object (Tree.getAtPath doc path)
  || (plain_path path && rows_primitive rows && rows_plain rows).

(** The row [color] of a node, a primitive. *)
Definition row_color (v : string) : NodeRow :=
  {| row_key := Some "color"; row_value := VStr v; row_type := "primitive" |}.

(** The node at [tags], the array of the scenario, as a stale view
    would show it. *)
Definition node_tags (rows : list NodeRow) : NodeData :=
  {| node_path := Some [SStr "user"; SStr "tags"]; node_text := Some rows |}.

(** [JSON.parse] of a session that reads the text of the scenario first
    and the text it wrote afterwards. *)
Definition parse_Bob_then_Alice (text : string) : option tree :=
  if decide (text = "out") then Some doc_Alice else Some doc_Bob.

(** ** Key lemmas *)

Lemma numeric_index_to_key n : numeric_index (to_key (SNum n)) = Some n.
Proof.
  unfold numeric_index, to_key.
  rewrite NilZero.usu.
  - cbn zeta. rewrite Unsigned.of_to. by rewrite decide_True.
  - intros E. pose proof (Unsigned.to_of (N.to_uint n)) as H.
    rewrite Unsigned.of_to in H. rewrite E in H at 1.
    symmetry in H. by apply DecimalFacts.unorm_nonnil in H.
Qed.

Lemma numeric_index_canonical key i :
  numeric_index key = Some i → key = to_key (SNum i).
Proof.
  unfold numeric_index.
  destruct (NilZero.uint_of_string key) as [d|] eqn:E; [|done].
  cbn zeta. case_decide as Hd; [|done].
  intros [= <-]. cbn. rewrite Hd. symmetry. by apply NilZero.sus.
Qed.

Lemma array_index_to_key_num n :
  (n < max_index)%N → array_index (to_key (SNum n)) = Some n.
Proof.
  intros Hn. unfold array_index. rewrite numeric_index_to_key.
  apply N.ltb_lt in Hn. by rewrite Hn.
Qed.

Lemma array_index_canonical key i :
  array_index key = Some i → key = to_key (SNum i) ∧ (i < max_index)%N.
Proof.
  unfold array_index.
  destruct (numeric_index key) as [n|] eqn:E; [|done].
  destruct (N.ltb_spec n max_index) as [Hlt|]; [|done].
  intros [= <-]. split; [|done]. by apply numeric_index_canonical.
Qed.

Lemma to_key_num_inj n m : to_key (SNum n) = to_key (SNum m) → n = m.
Proof.
  intros H. pose proof (numeric_index_to_key n) as Hn.
  rewrite H, numeric_index_to_key in Hn. by injection Hn.
Qed.

Section fields_lemmas.
Context {A : Type}.
Implicit Types (fs : list (string * A)) (key : string) (v : A).

Lemma fields_has_true key fs : fields_has key fs = true ↔ is_Some (fields_get key fs).
Proof. unfold fields_has. by rewrite bool_decide_eq_true. Qed.

Lemma fields_has_false key fs : fields_has key fs = false ↔ fields_get key fs = None.
Proof.
  unfold fields_has. rewrite bool_decide_eq_false, <- eq_None_not_Some. done.
Qed.

Lemma fields_get_replace_eq key v fs :
  is_Some (fields_get key fs) → fields_get key (fields_replace key v fs) = Some v.
Proof.
  induction fs as [|[k w] fs IH]; cbn; [by intros [? ?]|].
  case_decide; cbn.
  - by rewrite decide_True.
  - intros H'. rewrite decide_False by done. auto.
Qed.

Lemma fields_get_replace_ne key key' v fs :
  key ≠ key' → fields_get key' (fields_replace key v fs) = fields_get key' fs.
Proof.
  intros Hne. induction fs as [|[k w] fs IH]; cbn; [done|].
  destruct (decide (k = key)) as [->|]; cbn.
  - by rewrite !decide_False.
  - case_decide; [done|]. apply IH.
Qed.

Lemma fields_get_insert_index_eq i key v fs :
  fields_get key fs = None →
  fields_get key (fields_insert_index i key v fs) = Some v.
Proof.
  induction fs as [|[k w] fs IH]; cbn.
  - intros _. by rewrite decide_True.
  - case_decide; [done|]. intros Hn.
    destruct (array_index k) as [j|]; [destruct (j <? i)%N|]; cbn.
    + rewrite decide_False by done. auto.
    + by rewrite decide_True.
    + by rewrite decide_True.
Qed.

Lemma fields_get_insert_index_ne i key key' v fs :
  key ≠ key' →
  fields_get key' (fields_insert_index i key v fs) = fields_get key' fs.
Proof.
  intros Hne. induction fs as [|[k w] fs IH]; cbn.
  - by rewrite decide_False.
  - destruct (array_index k) as [j|]; [destruct (j <? i)%N|]; cbn.
    + case_decide; [done|]. apply IH.
    + by rewrite (decide_False (P := key = key')).
    + by rewrite (decide_False (P := key = key')).
Qed.

Lemma fields_get_app key fs fs' :
  fields_get key (fs ++ fs') =
    match fields_get key fs with Some v => Some v | None => fields_get key fs' end.
Proof.
  induction fs as [|[k w] fs IH]; cbn; [done|]. by case_decide.
Qed.

Lemma fields_get_put_eq key v fs : fields_get key (fields_put key v fs) = Some v.
Proof.
  unfold fields_put. destruct (fields_has key fs) eqn:E.
  - apply fields_get_replace_eq. by apply fields_has_true.
  - apply fields_has_false in E.
    destruct (array_index key).
    + by apply fields_get_insert_index_eq.
    + rewrite fields_get_app, E. cbn. by rewrite decide_True.
Qed.

Lemma fields_get_put_ne key key' v fs :
  key ≠ key' → fields_get key' (fields_put key v fs) = fields_get key' fs.
Proof.
  intros Hne. unfold fields_put. destruct (fields_has key fs).
  - by apply fields_get_replace_ne.
  - destruct (array_index key).
    + by apply fields_get_insert_index_ne.
    + rewrite fields_get_app. cbn. rewrite decide_False by done.
      by destruct (fields_get key' fs).
Qed.

Lemma fields_replace_id key v fs :
  fields_get key fs = Some v → fields_replace key v fs = fs.
Proof.
  induction fs as [|[k w] fs IH]; cbn; [done|].
  case_decide; [by intros [= ->]|]. intros H'. by rewrite IH.
Qed.

Lemma fields_put_id key v fs :
  fields_get key fs = Some v → fields_put key v fs = fs.
Proof.
  intros H. unfold fields_put.
  assert (fields_has key fs = true) as -> by (apply fields_has_true; eauto).
  by apply fields_replace_id.
Qed.

Lemma keys_fields_replace key v fs : keys (fields_replace key v fs) = keys fs.
Proof.
  unfold keys. induction fs as [|[k w] fs IH]; cbn; [done|].
  case_decide; cbn; [done|]. by rewrite IH.
Qed.
End fields_lemmas.



(** ** Reading back what was assigned *)

Section node_lemmas.
Context {A : Type} (undef : A).
Implicit Types (es : list A) (c : node A) (key : string) (v : A).

Lemma length_elems_set es i v :
  length (elems_set undef es i v) = max (length es) (S i).
Proof.
  unfold elems_set. case_decide.
  - rewrite length_insert. lia.
  - rewrite !length_app, length_replicate. cbn. lia.
Qed.

Lemma elems_set_lookup_eq es i v :
  default undef (elems_set undef es i v !! i) = v.
Proof.
  unfold elems_set. case_decide.
  - by rewrite list_lookup_insert_eq.
  - rewrite lookup_app_r by lia. rewrite lookup_app_r; rewrite length_replicate; [|lia].
    by replace (i - length es - (i - length es)) with 0 by lia.
Qed.

Lemma elems_set_lookup_ne es i j v :
  i ≠ j → default undef (elems_set undef es i v !! j) = default undef (es !! j).
Proof.
  intros Hne. unfold elems_set. case_decide.
  - by rewrite list_lookup_insert_ne.
  - destruct (decide (j < length es)).
    + by rewrite lookup_app_l.
    + rewrite (lookup_ge_None_2 es j) by lia.
      rewrite lookup_app_r by lia.
      destruct (decide (j - length es < i - length es)).
      * rewrite lookup_app_l by (rewrite length_replicate; lia).
        rewrite lookup_replicate_2 by lia. done.
      * rewrite lookup_app_r by (rewrite length_replicate; lia).
        rewrite length_replicate.
        rewrite lookup_ge_None_2; [done|]. cbn. lia.
Qed.

Lemma elems_set_set es i v w :
  elems_set undef (elems_set undef es i v) i w = elems_set undef es i w.
Proof.
  unfold elems_set at 1. rewrite length_elems_set.
  rewrite decide_True by lia.
  unfold elems_set. case_decide.
  - by rewrite list_insert_insert_eq.
  - rewrite insert_app_r_alt by lia.
    f_equal. rewrite insert_app_r_alt; rewrite length_replicate; [|lia].
    f_equal. by replace (i - length es - (i - length es)) with 0 by lia.
Qed.

Lemma elems_set_id es i v :
  es !! i = Some v → elems_set undef es i v = es.
Proof.
  intros H. unfold elems_set.
  rewrite decide_True by (by eapply lookup_lt_Some).
  by apply list_insert_id.
Qed.

Lemma fields_put_put key v w (fs : list (string * A)) :
  fields_put key w (fields_put key v fs) = fields_put key w fs.
Proof.
  unfold fields_put at 1.
  assert (fields_has key (fields_put key v fs) = true) as ->.
  { apply fields_has_true. rewrite fields_get_put_eq. eauto. }
  unfold fields_put. destruct (fields_has key fs) eqn:E.
  - clear E. induction fs as [|[k x] fs IH]; cbn; [done|].
    case_decide; cbn.
    + by rewrite decide_True.
    + rewrite decide_False by done. by rewrite IH.
  - apply fields_has_false in E. destruct (array_index key) as [i|].
    + induction fs as [|[k x] fs IH]; cbn in *.
      * by rewrite decide_True.
      * case_decide; [done|].
        destruct (array_index k) as [j|]; [destruct (j <? i)%N|]; cbn.
        -- rewrite decide_False by done. by rewrite IH.
        -- by rewrite decide_True.
        -- by rewrite decide_True.
    + induction fs as [|[k x] fs IH]; cbn in *.
      * by rewrite decide_True.
      * case_decide; [done|]. by rewrite IH.
Qed.

Lemma array_index_inj key key' i :
  array_index key = Some i → array_index key' = Some i → key = key'.
Proof.
  intros [-> _]%array_index_canonical [-> _]%array_index_canonical. done.
Qed.

Lemma node_get_put_eq c key v : node_get undef (node_put undef c key v) key = v.
Proof.
  destruct c as [es ps|fs]; cbn.
  - destruct (array_index key) as [i|] eqn:E; cbn; rewrite E.
    + apply elems_set_lookup_eq.
    + by rewrite fields_get_put_eq.
  - by rewrite fields_get_put_eq.
Qed.

Lemma node_get_put_ne c key key' v :
  key ≠ key' → node_get undef (node_put undef c key v) key' = node_get undef c key'.
Proof.
  intros Hne. destruct c as [es ps|fs]; cbn.
  - destruct (array_index key) as [i|] eqn:E; cbn;
      destruct (array_index key') as [j|] eqn:E'; try done.
    + apply elems_set_lookup_ne. intros Hij.
      apply N2Nat.inj in Hij as ->. by eapply Hne, array_index_inj.
    + by rewrite fields_get_put_ne.
  - by rewrite fields_get_put_ne.
Qed.

Lemma node_put_put c key v w :
  node_put undef (node_put undef c key v) key w = node_put undef c key w.
Proof.
  destruct c as [es ps|fs]; cbn.
  - destruct (array_index key) as [i|] eqn:E; cbn; rewrite E.
    + by rewrite elems_set_set.
    + by rewrite fields_put_put.
  - by rewrite fields_put_put.
Qed.

Lemma node_is_array_put c key v :
  node_is_array (node_put undef c key v) = node_is_array c.
Proof. destruct c; cbn; [|done]. by destruct (array_index key). Qed.
End node_lemmas.


(** ** Containers related entry by entry *)

Lemma tree_ind' (P : tree → Prop) :
  P TUndef → P TNull → (∀ b, P (TBool b)) → (∀ n, P (TNum n)) → (∀ s, P (TStr s)) →
  (∀ es ps, Forall P es → Forall (λ kv, P kv.2) ps → P (TNode (NArr es ps))) →
  (∀ fs, Forall (λ kv, P kv.2) fs → P (TNode (NObj fs))) →
  ∀ t, P t.
Proof.
  intros Hu Hn Hb Hz Hs Harr Hobj.
  fix IH 1.
  intros [| | b | n | s | [es ps | fs]];
    [exact Hu | exact Hn | apply Hb | apply Hz | apply Hs | |].
  - apply Harr.
    + induction es as [|e es IHes]; constructor; [apply IH | apply IHes].
    + induction ps as [|[k e] ps IHps]; constructor; [apply IH | apply IHps].
  - apply Hobj.
    induction fs as [|[k e] fs IHfs]; constructor; [apply IH | apply IHfs].
Qed.

Lemma Forall2_impl_Forall_r {A B} (R R' : A → B → Prop) l k :
  Forall (λ y, ∀ x, R x y → R' x y) k → Forall2 R l k → Forall2 R' l k.
Proof.
  intros HF H2. induction H2 as [|x y l k Hxy H2 IH]; [constructor|].
  inversion_clear HF. constructor; auto.
Qed.

Section rel.
Context {A B : Type} (R : A → B → Prop).
Implicit Types (fs : list (string * A)) (gs : list (string * B)).

Lemma field_rel_inv k k' a b : field_rel R (k, a) (k', b) → k = k' ∧ R a b.
Proof. by inversion 1. Qed.

Lemma fields_get_rel key fs gs :
  Forall2 (field_rel R) fs gs →
  option_Forall2 R (fields_get key fs) (fields_get key gs).
Proof.
  induction 1 as [|[k a] [k' b] fs gs Hf _ IH]; cbn; [constructor|].
  apply field_rel_inv in Hf as [<- Hab].
  case_decide; [by constructor | done].
Qed.

Lemma fields_has_rel key fs gs :
  Forall2 (field_rel R) fs gs → fields_has key fs = fields_has key gs.
Proof.
  intros H. apply (fields_get_rel key) in H. unfold fields_has.
  destruct H; apply bool_decide_ext; split; intros [? ?]; eauto; done.
Qed.

Lemma fields_replace_rel key a b fs gs :
  R a b → Forall2 (field_rel R) fs gs →
  Forall2 (field_rel R) (fields_replace key a fs) (fields_replace key b gs).
Proof.
  intros Hab. induction 1 as [|[k x] [k' y] fs gs Hf Hfs IH]; cbn; [constructor|].
  apply field_rel_inv in Hf as [<- Hxy].
  case_decide; constructor; try done; by constructor.
Qed.

Lemma fields_insert_index_rel i key a b fs gs :
  R a b → Forall2 (field_rel R) fs gs →
  Forall2 (field_rel R) (fields_insert_index i key a fs)
    (fields_insert_index i key b gs).
Proof.
  intros Hab. induction 1 as [|[k x] [k' y] fs gs Hf Hfs IH]; cbn.
  - repeat constructor. done.
  - apply field_rel_inv in Hf as [<- Hxy].
    destruct (array_index k) as [j|]; [destruct (j <? i)%N|];
      repeat first [done | constructor].
Qed.

Lemma fields_put_rel key a b fs gs :
  R a b → Forall2 (field_rel R) fs gs →
  Forall2 (field_rel R) (fields_put key a fs) (fields_put key b gs).
Proof.
  intros Hab Hfs. unfold fields_put.
  rewrite <- (fields_has_rel key fs gs Hfs).
  destruct (fields_has key fs).
  - by apply fields_replace_rel.
  - destruct (array_index key).
    + by apply fields_insert_index_rel.
    + apply Forall2_app; [done|]. repeat constructor. done.
Qed.

Lemma elems_set_rel u u' i a b es es' :
  R u u' → R a b → Forall2 R es es' →
  Forall2 R (elems_set u es i a) (elems_set u' es' i b).
Proof.
  intros Hu Hab Hes. unfold elems_set.
  rewrite <- (Forall2_length Hes).
  case_decide.
  - by apply Forall2_insert.
  - apply Forall2_app; [done|]. apply Forall2_app.
    + by apply Forall2_replicate.
    + by repeat constructor.
Qed.

Lemma node_get_rel u u' c c' key :
  R u u' → node_rel R c c' → R (node_get u c key) (node_get u' c' key).
Proof.
  intros Hu [es es' ps ps' Hes Hps | fs gs Hfs]; cbn.
  - destruct (array_index key) as [i|].
    + destruct (es !! N.to_nat i) as [a|] eqn:E.
      * destruct (Forall2_lookup_l _ _ _ _ _ Hes E) as (b & -> & Hab). done.
      * apply lookup_ge_None in E. rewrite (Forall2_length Hes) in E.
        apply lookup_ge_None in E. by rewrite E.
    + destruct (fields_get_rel key _ _ Hps); done.
  - destruct (fields_get_rel key _ _ Hfs); done.
Qed.

Lemma node_put_rel u u' c c' key a b :
  R u u' → R a b → node_rel R c c' →
  node_rel R (node_put u c key a) (node_put u' c' key b).
Proof.
  intros Hu Hab [es es' ps ps' Hes Hps | fs gs Hfs]; cbn.
  - destruct (array_index key) as [i|]; constructor; try done.
    + by apply elems_set_rel.
    + by apply fields_put_rel.
  - constructor. by apply fields_put_rel.
Qed.

Lemma node_is_array_rel c c' : node_rel R c c' → node_is_array c = node_is_array c'.
Proof. by intros []. Qed.

Lemma imap_field_rel {A0 B0} (f : A0 → A) (g : B0 → B) (R0 : A0 → B0 → Prop)
    (kf : nat → string) l l' :
  (∀ x y, R0 x y → R (f x) (g y)) →
  Forall2 R0 l l' →
  Forall2 (field_rel R) (imap (λ i x, (kf i, f x)) l) (imap (λ i y, (kf i, g y)) l').
Proof.
  intros Hfg H. revert kf.
  induction H as [|x y l l' Hxy _ IH]; intros kf; cbn; constructor.
  - constructor. auto.
  - apply (IH (kf ∘ S)).
Qed.

Lemma indexed_rel {A0 B0} (f : A0 → A) (g : B0 → B) (R0 : A0 → B0 → Prop) l l' :
  (∀ x y, R0 x y → R (f x) (g y)) →
  Forall2 R0 l l' → Forall2 (field_rel R) (indexed f l) (indexed g l').
Proof. intros. by eapply imap_field_rel. Qed.
End rel.


(** ** The heap against its content *)

Lemma shallow_copy_alloc h v : shallow_copy h v = alloc h (copy_of h v).
Proof. unfold shallow_copy, copy_of, slice, spread. by destruct (isArray h v). Qed.

Lemma unchanged_refl h : unchanged h h.
Proof. by intros l c. Qed.

Lemma unchanged_trans h1 h2 h3 : unchanged h1 h2 → unchanged h2 h3 → unchanged h1 h3.
Proof. intros H12 H23 l c ?. auto. Qed.

Lemma unchanged_app h k : unchanged h (h ++ k).
Proof. intros l c H. by apply lookup_app_l_Some. Qed.

Lemma unchanged_insert_fresh (h0 h : heap) (l : loc) c :
  unchanged h0 h → length h0 ≤ l → unchanged h0 (<[l:=c]> h).
Proof.
  intros Hu Hl l' c' H. rewrite list_lookup_insert_ne; [by apply Hu|].
  apply lookup_lt_Some in H. lia.
Qed.

Lemma node_rel_impl {A B} (R R' : A → B → Prop) c c' :
  (∀ x y, R x y → R' x y) → node_rel R c c' → node_rel R' c c'.
Proof.
  intros HR [es es' ps ps' Hes Hps | fs fs' Hfs]; constructor.
  - eapply Forall2_impl; [|exact Hes]. done.
  - eapply Forall2_impl; [|exact Hps]. intros ? ? []. constructor. auto.
  - eapply Forall2_impl; [|exact Hfs]. intros ? ? []. constructor. auto.
Qed.

Lemma repr_unchanged h h' v t : unchanged h h' → repr h v t → repr h' v t.
Proof.
  intros Hu. revert v.
  induction t as [| | b | n | s | es ps IHes IHps | fs IHfs] using tree_ind';
    intros v Hr; inversion Hr as [| | | | |l c tc Hl Hc]; subst;
    try constructor.
  - inversion Hc as [es0 ? ps0 ? Hes Hps|]; subst.
    econstructor; [by apply Hu|]. constructor.
    + eapply Forall2_impl_Forall_r; [|exact Hes]. done.
    + eapply Forall2_impl_Forall_r; [|exact Hps].
      eapply Forall_impl; [|exact IHps].
      intros [k t] IH [k' v] Hf. apply field_rel_inv in Hf as [-> ?].
      constructor. by apply IH.
  - inversion Hc as [|fs0 ? Hfs]; subst.
    econstructor; [by apply Hu|]. constructor.
    eapply Forall2_impl_Forall_r; [|exact Hfs].
    eapply Forall_impl; [|exact IHfs].
    intros [k t] IH [k' v] Hf. apply field_rel_inv in Hf as [-> ?].
    constructor. by apply IH.
Qed.

Lemma repr_nullish h v t : repr h v t → nullish v = Tree.nullish t.
Proof. by intros []. Qed.

Lemma repr_isArray h v t : repr h v t → isArray h v = Tree.isArray t.
Proof.
  intros [| | | | |l c tc Hl Hc]; try done. cbn. rewrite Hl.
  by eapply node_is_array_rel.
Qed.

Lemma string_chars_rel h s :
  Forall2 (field_rel (repr h)) (indexed VStr (string_chars s)) (indexed TStr (string_chars s)).
Proof.
  apply (indexed_rel _ _ _ eq).
  - intros ? ? ->. constructor.
  - by apply Forall_Forall2_diag, Forall_true.
Qed.

Lemma char_at_rel h s key :
  repr h (char_at VStr VUndef s key) (char_at TStr TUndef s key).
Proof.
  unfold char_at. destruct (numeric_index key); [|constructor].
  destruct (string_chars s !! _); constructor.
Qed.

Lemma repr_own_get h v t key :
  repr h v t → repr h (own_get h v key) (Tree.get t key).
Proof.
  intros [| | | | |l c tc Hl Hc]; cbn; try constructor.
  - apply char_at_rel.
  - rewrite Hl. apply node_get_rel; [constructor | done].
Qed.

Lemma repr_own_props h v t :
  repr h v t → Forall2 (field_rel (repr h)) (own_props h v) (Tree.own_props t).
Proof.
  intros [| | | | |l c tc Hl Hc]; cbn; try constructor.
  - apply string_chars_rel.
  - rewrite Hl. destruct Hc as [es es' ps ps' Hes Hps | fs fs' Hfs]; [|done].
    apply Forall2_app; [|done]. by apply (indexed_rel _ _ _ (repr h)).
Qed.

Lemma repr_copy_of h v t :
  repr h v t → node_rel (repr h) (copy_of h v) (Tree.copy_of t).
Proof.
  intros Hr. unfold copy_of. rewrite (repr_isArray _ _ _ Hr).
  pose proof (repr_own_props _ _ _ Hr) as Hp.
  destruct Hr as [| | | | |l c tc Hl Hc]; cbn in *; try by constructor.
  destruct Hc as [es es' ps ps' Hes Hps | fs fs' Hfs]; cbn.
  - rewrite Hl. by repeat constructor.
  - by constructor.
Qed.


(** ** One turn of the loop of [setAtPath] *)

Lemma getProp_ref h l c seg :
  h !! l = Some c → getProp h (VRef l) seg = Ok (node_get VUndef c (to_key seg)).
Proof. intros H. unfold getProp. cbn. by rewrite H. Qed.

Lemma putProp_ref h l c seg x :
  h !! l = Some c →
  putProp h (VRef l) seg x = Ok (<[l := node_put VUndef c (to_key seg) x]> h).
Proof. intros H. unfold putProp. by rewrite H. Qed.

Lemma copy_of_empty_for (h : heap) l next :
  h !! l = Some (empty_for next) → copy_of h (VRef l) = empty_for next.
Proof.
  intros H. unfold copy_of, empty_for in *. cbn. rewrite H.
  by destruct (is_number next).
Qed.

Lemma setAtPath_loop_step h cur c seg nextSeg rest value :
  h !! cur = Some c →
  setAtPath_loop h (VRef cur) seg (nextSeg :: rest) value =
    setAtPath_loop (step_heap h cur c seg nextSeg).2
      (VRef (step_heap h cur c seg nextSeg).1) nextSeg rest value.
Proof.
  intros Hc. pose proof (lookup_lt_Some _ _ _ Hc) as Hlt.
  cbn [setAtPath_loop]. unfold step_heap.
  rewrite (getProp_ref _ _ _ _ Hc). cbn [mbind result_bind].
  set (key := to_key seg). set (cv := node_get VUndef c key).
  destruct (nullish cv) eqn:Hnull.
  - unfold alloc.
    assert ((h ++ [empty_for nextSeg]) !! cur = Some c) as Hc1
      by (by apply lookup_app_l_Some).
    rewrite (putProp_ref _ _ _ _ _ Hc1). cbn [mbind result_bind]. fold key.
    set (h1 := <[cur:=_]> (h ++ [empty_for nextSeg])).
    assert (length h1 = S (length h)) as Hlen1.
    { unfold h1. rewrite length_insert, length_app. cbn. lia. }
    assert (h1 !! cur = Some (node_put VUndef c key (VRef (length h)))) as Hcur1.
    { unfold h1. apply list_lookup_insert_eq. rewrite length_app. lia. }
    assert (h1 !! length h = Some (empty_for nextSeg)) as Hnew1.
    { unfold h1. rewrite list_lookup_insert_ne by lia.
      rewrite lookup_app_r by lia. by rewrite Nat.sub_diag. }
    rewrite (getProp_ref _ _ _ _ Hcur1). cbn [mbind result_bind]. fold key.
    rewrite node_get_put_eq.
    rewrite shallow_copy_alloc, (copy_of_empty_for _ _ _ Hnew1).
    unfold alloc. rewrite Hlen1.
    assert ((h1 ++ [empty_for nextSeg]) !! cur
            = Some (node_put VUndef c key (VRef (length h)))) as Hcur2
      by (by apply lookup_app_l_Some).
    rewrite (putProp_ref _ _ _ _ _ Hcur2). cbn [mbind result_bind]. fold key.
    rewrite node_put_put.
    set (h3 := <[cur:=_]> (h1 ++ [empty_for nextSeg])).
    assert (h3 = <[cur:=node_put VUndef c key (VRef (S (length h)))]>
                   (h ++ [empty_for nextSeg; empty_for nextSeg])) as Hh3.
    { unfold h3, h1.
      rewrite <- insert_app_l by (rewrite length_app; lia).
      rewrite list_insert_insert_eq.
      by rewrite <- app_assoc. }
    rewrite Hh3.
    assert ((<[cur:=node_put VUndef c key (VRef (S (length h)))]>
               (h ++ [empty_for nextSeg; empty_for nextSeg])) !! cur
            = Some (node_put VUndef c key (VRef (S (length h))))) as Hcur3.
    { apply list_lookup_insert_eq. rewrite length_app. lia. }
    rewrite (getProp_ref _ _ _ _ Hcur3). cbn [mbind result_bind]. fold key.
    by rewrite node_get_put_eq.
  - cbn [mbind result_bind].
    rewrite (getProp_ref _ _ _ _ Hc). cbn [mbind result_bind]. fold key cv.
    rewrite shallow_copy_alloc. unfold alloc.
    assert ((h ++ [copy_of h cv]) !! cur = Some c) as Hc1
      by (by apply lookup_app_l_Some).
    rewrite (putProp_ref _ _ _ _ _ Hc1). cbn [mbind result_bind]. fold key.
    assert ((<[cur:=node_put VUndef c key (VRef (length h))]>
               (h ++ [copy_of h cv])) !! cur
            = Some (node_put VUndef c key (VRef (length h)))) as Hcur3.
    { apply list_lookup_insert_eq. rewrite length_app. lia. }
    rewrite (getProp_ref _ _ _ _ Hcur3). cbn [mbind result_bind]. fold key.
    by rewrite node_get_put_eq.
Qed.


(** ** [setAtPath] computes the content [Tree.setAtPath] describes *)

Lemma copy_of_unchanged h0 h v t :
  repr h0 v t → unchanged h0 h → copy_of h v = copy_of h0 v.
Proof.
  intros Hr Hu. destruct Hr as [| | | | |l c tc Hl Hc]; try done.
  unfold copy_of, isArray, elems_of, own_props. by rewrite Hl, (Hu _ _ Hl).
Qed.

Lemma empty_for_rel h nextSeg :
  node_rel (repr h) (empty_for nextSeg) (Tree.copy_of (Tree.empty_for nextSeg)).
Proof. unfold empty_for, Tree.empty_for. destruct (is_number nextSeg); by repeat constructor. Qed.

Lemma step_heap_spec h cur c seg nextSeg :
  h !! cur = Some c →
  let lh := step_heap h cur c seg nextSeg in
  length h ≤ lh.1 ∧ lh.1 < length lh.2 ∧
  lh.2 !! cur = Some (node_put VUndef c (to_key seg) (VRef lh.1)) ∧
  lh.2 !! lh.1 =
    Some (let cv := node_get VUndef c (to_key seg) in
          if nullish cv then empty_for nextSeg else copy_of h cv) ∧
  (∀ l, l < length h → l ≠ cur → lh.2 !! l = h !! l).
Proof.
  intros Hc. pose proof (lookup_lt_Some _ _ _ Hc) as Hlt.
  unfold step_heap. cbn zeta.
  destruct (nullish (node_get VUndef c (to_key seg))); cbn [fst snd].
  - split_and!.
    + lia.
    + rewrite length_insert, length_app. cbn. lia.
    + apply list_lookup_insert_eq. rewrite length_app. lia.
    + rewrite list_lookup_insert_ne by lia.
      rewrite lookup_app_r by lia.
      by replace (S (length h) - length h) with 1 by lia.
    + intros l Hl Hne. rewrite list_lookup_insert_ne by done.
      by rewrite lookup_app_l.
  - split_and!.
    + lia.
    + rewrite length_insert, length_app. cbn. lia.
    + apply list_lookup_insert_eq. rewrite length_app. lia.
    + rewrite list_lookup_insert_ne by lia.
      rewrite lookup_app_r by lia. by rewrite Nat.sub_diag.
    + intros l Hl Hne. rewrite list_lookup_insert_ne by done.
      by rewrite lookup_app_l.
Qed.

Lemma setAtPath_loop_repr rest :
  ∀ (h0 h : heap) (cur : loc) c tc seg value tv,
    unchanged h0 h → length h0 ≤ cur → h !! cur = Some c →
    node_rel (repr h0) c tc → repr h0 value tv →
    ∃ h', setAtPath_loop h (VRef cur) seg rest value = Ok h' ∧
          repr h' (VRef cur) (Tree.descend (TNode tc) seg rest tv) ∧
          (∀ l, l < length h → l ≠ cur → h' !! l = h !! l) ∧
          length h ≤ length h'.
Proof.
  induction rest as [|nextSeg rest IH]; intros h0 h cur c tc seg value tv Hu Hcur Hc Hrel Hval.
  - pose proof (lookup_lt_Some _ _ _ Hc) as Hlt.
    eexists. split; [by apply putProp_ref|]. split_and!.
    + assert (unchanged h0 (<[cur:=node_put VUndef c (to_key seg) value]> h)) as Hu'
        by (by apply unchanged_insert_fresh).
      cbn. econstructor; [by apply list_lookup_insert_eq|].
      apply node_put_rel; [constructor | by eapply repr_unchanged |].
      eapply node_rel_impl; [|exact Hrel]. intros. by eapply repr_unchanged.
    + intros l _ Hne. by rewrite list_lookup_insert_ne.
    + by rewrite length_insert.
  - rewrite (setAtPath_loop_step _ _ _ _ _ _ _ Hc).
    destruct (step_heap_spec h cur c seg nextSeg Hc) as (Hge & Hlt' & Hcur' & Hnew & Hframe).
    pose proof (lookup_lt_Some _ _ _ Hc) as Hlt.
    set (lh := step_heap h cur c seg nextSeg) in *.
    set (key := to_key seg) in *.
    set (cv := node_get VUndef c key) in *.
    set (tcv := node_get TUndef tc key).
    assert (repr h0 cv tcv) as Hcv by (apply node_get_rel; [constructor | done]).
    assert (unchanged h0 lh.2) as Hu1.
    { intros l c' Hl. pose proof (lookup_lt_Some _ _ _ Hl).
      rewrite Hframe by lia. by apply Hu. }
    set (tchild := Tree.copy_of (if Tree.nullish tcv then Tree.empty_for nextSeg else tcv)).
    assert (∃ child, lh.2 !! lh.1 = Some child ∧ node_rel (repr h0) child tchild)
      as (child & Hchild & Hchildrel).
    { eexists. split; [exact Hnew|]. cbn zeta. unfold tchild.
      rewrite <- (repr_nullish _ _ _ Hcv).
      destruct (nullish cv).
      - apply empty_for_rel.
      - rewrite (copy_of_unchanged h0 h cv tcv) by done. by apply repr_copy_of. }
    destruct (IH h0 lh.2 lh.1 child tchild nextSeg value tv) as (h' & Hrun & Hrepr & Hframe' & Hlen');
      [done | lia | done | done | done |].
    exists h'. split; [done|]. split_and!.
    + cbn [Tree.descend]. fold key tcv.
      assert (unchanged h0 h') as Hu2.
      { intros l c' Hl. pose proof (lookup_lt_Some _ _ _ Hl).
        rewrite Hframe' by lia. by apply Hu1. }
      econstructor.
      { rewrite Hframe' by lia. exact Hcur'. }
      apply node_put_rel; [constructor | exact Hrepr |].
      eapply node_rel_impl; [|exact Hrel]. intros. by eapply repr_unchanged.
    + intros l Hl Hne. rewrite Hframe' by lia. by apply Hframe.
    + lia.
Qed.

(** The result of [setAtPath] has the content [Tree.setAtPath] gives, and
    no container of the input heap has changed. *)
Lemma setAtPath_repr h root path value troot tv :
  repr h root troot → repr h value tv →
  ∃ r h', setAtPath h root path value = Ok (r, h') ∧
          repr h' r (Tree.setAtPath troot path tv) ∧ unchanged h h'.
Proof.
  intros Hroot Hval. destruct path as [|seg rest]; cbn.
  - exists value, h. split_and!; [done | done | apply unchanged_refl].
  - rewrite shallow_copy_alloc. unfold alloc.
    destruct (setAtPath_loop_repr rest h (h ++ [copy_of h root]) (length h)
                (copy_of h root) (Tree.copy_of troot) seg value tv)
      as (h' & Hrun & Hrepr & Hframe & Hlen).
    + apply unchanged_app.
    + done.
    + rewrite lookup_app_r by lia. by rewrite Nat.sub_diag.
    + by apply repr_copy_of.
    + done.
    + rewrite Hrun. cbn. exists (VRef (length h)), h'. split_and!; [done | done |].
      intros l c Hl. pose proof (lookup_lt_Some _ _ _ Hl).
      rewrite Hframe; [by apply lookup_app_l_Some | rewrite length_app; lia | lia].
Qed.


(** ** Laws of the content functions *)

Lemma fields_get_imap_shift {A B} (f : A → B) (l : list A) (n : nat) key :
  fields_get key (imap (λ i x, (to_key (SNum (N.of_nat (n + i))), f x)) l) =
    match numeric_index key with
    | Some j => if decide (n ≤ N.to_nat j) then f <$> l !! (N.to_nat j - n) else None
    | None => None
    end.
Proof.
  revert n. induction l as [|x l IH]; intros n.
  - cbn. destruct (numeric_index key); [|done]. by case_decide.
  - rewrite imap_cons. cbn [fields_get].
    rewrite (imap_ext _ (λ i x, (to_key (SNum (N.of_nat (S n + i))), f x)));
      [|intros i y _; cbn; do 3 f_equal; lia].
    rewrite IH. case_decide as Hk.
    + rewrite <- Hk, numeric_index_to_key, Nat.add_0_r, Nat2N.id.
      rewrite decide_True by lia. by rewrite Nat.sub_diag.
    + destruct (numeric_index key) as [j|] eqn:Hj; [|done].
      assert (N.to_nat j ≠ n) as Hne.
      { intros <-. apply Hk. rewrite Nat.add_0_r, N2Nat.id.
        symmetry. by apply numeric_index_canonical. }
      destruct (decide (S n ≤ N.to_nat j)).
      * rewrite decide_True by lia.
        by replace (N.to_nat j - n) with (S (N.to_nat j - S n)) by lia.
      * by rewrite decide_False by lia.
Qed.

Lemma fields_get_indexed {A B} (f : A → B) (l : list A) key :
  fields_get key (indexed f l) =
    match numeric_index key with
    | Some j => f <$> l !! N.to_nat j
    | None => None
    end.
Proof.
  unfold indexed. rewrite (fields_get_imap_shift f l 0).
  destruct (numeric_index key); [|done].
  rewrite decide_True by lia. by rewrite Nat.sub_0_r.
Qed.

Module TreeLemmas.
Import Tree.

Lemma get_nullish t key : nullish t = true → get t key = TUndef.
Proof. by destruct t. Qed.

Lemma nullish_put_node c key v : nullish (put (TNode c) key v) = false.
Proof. done. Qed.

Lemma get_put_eq c key v : get (put (TNode c) key v) key = v.
Proof. cbn. apply node_get_put_eq. Qed.

Lemma get_put_ne c key key' v :
  key ≠ key' → get (put (TNode c) key v) key' = get (TNode c) key'.
Proof. intros. cbn. by apply node_get_put_ne. Qed.

Lemma get_put_copy t key v : get (put (shallow_copy t) key v) key = v.
Proof. apply get_put_eq. Qed.

(** Reading from the shallow copy is reading from the original, as
    long as an array carries no named properties. *)
Lemma get_shallow_copy t key :
  (∀ es ps, t = TNode (NArr es ps) → ps = []) →
  get (shallow_copy t) key = get t key.
Proof.
  intros Hps. destruct t as [| | b | n | s | [es ps | fs]]; try done.
  - cbn. rewrite fields_get_indexed. unfold char_at.
    by destruct (numeric_index key).
  - rewrite (Hps es ps eq_refl). done.
Qed.

Lemma is_json_no_props t es ps : is_json t = true → t = TNode (NArr es ps) → ps = [].
Proof.
  intros H ->. cbn in H. apply andb_true_iff in H as [_ H]. by destruct ps.
Qed.

Lemma get_shallow_copy_json t key :
  is_json t = true → get (shallow_copy t) key = get t key.
Proof. intros H. apply get_shallow_copy. intros. by eapply is_json_no_props. Qed.

Lemma is_json_fields_get key fs t :
  forallb (λ kv : string * tree, is_json kv.2) fs = true →
  fields_get key fs = Some t → is_json t = true.
Proof.
  induction fs as [|[k x] fs IH]; cbn; [done|].
  intros [Hx Hfs]%andb_true_iff. case_decide; [by intros [= <-] | auto].
Qed.

Lemma is_json_get t key :
  is_json t = true → get t key = TUndef ∨ is_json (get t key) = true.
Proof.
  destruct t as [| | b | n | s | [es ps | fs]]; cbn; auto.
  - intros _. unfold char_at. destruct (numeric_index key); [|by left].
    destruct (string_chars s !! _); cbn; auto.
  - intros [Hes Hps]%andb_true_iff. destruct ps; [|done].
    destruct (array_index key); cbn; [|by left].
    destruct (es !! _) as [t|] eqn:E; cbn; [|by left].
    right. rewrite forallb_forall in Hes. apply Hes.
    apply list_elem_of_In. by eapply list_elem_of_lookup_2.
  - intros Hfs. destruct (fields_get key fs) as [t|] eqn:E; cbn; [|by left].
    right. by eapply is_json_fields_get.
Qed.

Lemma is_json_empty_for seg : is_json (empty_for seg) = true.
Proof. unfold empty_for. by destruct (is_number seg). Qed.

Lemma is_json_or_empty c seg :
  c = TUndef ∨ is_json c = true → is_json (or_empty c seg) = true.
Proof.
  unfold or_empty. intros [-> | H]; cbn; [apply is_json_empty_for|].
  destruct (nullish c); [apply is_json_empty_for | done].
Qed.

(** The equations of [setAtPath]. *)
Lemma setAtPath_last t seg v :
  setAtPath t [seg] v = put (shallow_copy t) (to_key seg) v.
Proof. done. Qed.

Lemma setAtPath_cons t seg nextSeg rest v :
  setAtPath t (seg :: nextSeg :: rest) v =
    put (shallow_copy t) (to_key seg)
      (setAtPath (or_empty (get (shallow_copy t) (to_key seg)) nextSeg)
         (nextSeg :: rest) v).
Proof. done. Qed.

Lemma getAtPath_nullish t path : nullish t = true → path ≠ [] → getAtPath t path = TUndef.
Proof. intros H. destruct path; [done|]. cbn. by rewrite H. Qed.

Lemma getAtPath_undef path : getAtPath TUndef path = TUndef.
Proof. by destruct path. Qed.

Lemma getAtPath_cons t seg rest :
  getAtPath t (seg :: rest) = getAtPath (get t (to_key seg)) rest.
Proof.
  cbn. destruct (nullish t) eqn:E; [|done].
  rewrite get_nullish by done. by rewrite getAtPath_undef.
Qed.

Lemma getAtPath_app t p q : getAtPath t (p ++ q) = getAtPath (getAtPath t p) q.
Proof.
  revert t. induction p as [|seg p IH]; intros t; [done|].
  cbn [app]. rewrite !getAtPath_cons. apply IH.
Qed.

Lemma shallow_copy_empty_for seg : shallow_copy (empty_for seg) = empty_for seg.
Proof. unfold empty_for. by destruct (is_number seg). Qed.

Lemma get_empty_for seg key : get (empty_for seg) key = TUndef.
Proof.
  unfold empty_for. destruct (is_number seg); cbn; [|done].
  by destruct (array_index key).
Qed.

Lemma getAtPath_empty_for seg path : path ≠ [] → getAtPath (empty_for seg) path = TUndef.
Proof.
  destruct path as [|s path]; [done|]. intros _.
  by rewrite getAtPath_cons, get_empty_for, getAtPath_undef.
Qed.

(** Written into a container just created, a path leaves a chain. *)
Lemma setAtPath_empty_for seg rest v :
  setAtPath (empty_for seg) (seg :: rest) v = chain seg rest v.
Proof.
  revert seg. induction rest as [|nextSeg rest IH]; intros seg.
  - by rewrite setAtPath_last, shallow_copy_empty_for.
  - rewrite setAtPath_cons, shallow_copy_empty_for, get_empty_for.
    cbn [chain]. unfold or_empty. cbn [nullish]. by rewrite IH.
Qed.


End TreeLemmas.


(** ** Writing back what was read *)

Module RoundTrip.
Import Tree TreeLemmas.

(** Putting back the value a container holds at a key leaves it as it
    was. *)
Lemma put_get_id c key :
  (∀ es ps, c = NArr es ps → ps = []) →
  get (TNode c) key ≠ TUndef →
  put (shallow_copy (TNode c)) key (get (TNode c) key) = TNode c.
Proof.
  intros Hps Hget. destruct c as [es ps|fs]; cbn in *.
  - rewrite (Hps es ps eq_refl) in *.
    destruct (array_index key) as [i|]; [|done].
    destruct (es !! N.to_nat i) as [x|] eqn:E; [|done].
    cbn. by rewrite elems_set_id.
  - destruct (fields_get key fs) as [x|] eqn:E; [|done].
    cbn. by rewrite fields_put_id.
Qed.

Lemma setAtPath_getAtPath t path :
  is_json t = true →
  getAtPath t path ≠ TUndef →
  (∀ pre seg post s, path = pre ++ seg :: post → getAtPath t pre ≠ TStr s) →
  setAtPath t path (getAtPath t path) = t.
Proof.
  revert t. induction path as [|seg rest IH]; intros t Hjson Hres Hstr; [done|].
  rewrite getAtPath_cons in *.
  set (child := get t (to_key seg)) in *.
  assert (child ≠ TUndef) as Hchild.
  { intros E. rewrite E, getAtPath_undef in Hres. done. }
  assert (∃ c, t = TNode c) as [c ->].
  { destruct t as [| | b | n | s | c]; try done.
    - by destruct (Hstr [] seg rest s).
    - by eexists. }
  assert (put (shallow_copy (TNode c)) (to_key seg) child = TNode c) as Hput.
  { apply put_get_id; [|done]. intros ? ? ->. by eapply is_json_no_props. }
  destruct rest as [|nextSeg rest]; [by rewrite setAtPath_last|].
  rewrite setAtPath_cons, get_shallow_copy_json by done. fold child.
  assert (nullish child = false) as Hnn.
  { by destruct child. }
  unfold or_empty. rewrite Hnn.
  rewrite IH; [done | | done |].
  - destruct (is_json_get (TNode c) (to_key seg) Hjson); done.
  - intros pre s post str E.
    specialize (Hstr (seg :: pre) s post str).
    rewrite getAtPath_cons in Hstr. apply Hstr. cbn. by rewrite E.
Qed.
End RoundTrip.

(** ** [getAtPath] against the content it reads *)

Lemma getAtPath_loop_repr h cur tc path :
  repr h cur tc →
  ∃ v, getAtPath_loop h cur path = Ok v ∧ repr h v (Tree.getAtPath tc path).
Proof.
  revert cur tc. induction path as [|seg rest IH]; intros cur tc Hr; cbn.
  - eauto.
  - rewrite <- (repr_nullish _ _ _ Hr). unfold getProp.
    destruct (nullish cur); [eexists; split; [done | constructor]|].
    cbn. apply IH. by apply repr_own_get.
Qed.

Lemma getAtPath_repr h root t path :
  repr h root t →
  ∃ v, getAtPath h root path = Ok v ∧ repr h v (Tree.getAtPath t path).
Proof.
  intros Hr. destruct path as [|seg rest]; [by eexists|].
  by apply getAtPath_loop_repr.
Qed.


(** ** What [setAtPath] leaves untouched *)

Lemma node_get_copy_of h v t key :
  repr h v t → t = TUndef ∨ is_json t = true →
  node_get VUndef (copy_of h v) key = own_get h v key.
Proof.
  intros Hr Ht. destruct Hr as [| | | | |l c tc Hl Hc]; try done.
  - unfold copy_of. cbn. rewrite fields_get_indexed. unfold char_at.
    by destruct (numeric_index key).
  - unfold copy_of, isArray, elems_of, own_props, own_get. rewrite Hl.
    destruct Hc as [es es' ps ps' Hes Hps | fs fs' Hfs]; [|done].
    destruct Ht as [|Ht]; [done|].
    assert (ps' = []) as -> by (by eapply TreeLemmas.is_json_no_props).
    by inversion Hps.
Qed.

(** The loop always runs to its end. *)
Lemma setAtPath_loop_total rest :
  ∀ (h : heap) (cur : loc) c seg value,
    h !! cur = Some c →
    ∃ h', setAtPath_loop h (VRef cur) seg rest value = Ok h' ∧
          (∀ l, l < length h → l ≠ cur → h' !! l = h !! l) ∧
          length h ≤ length h' ∧
          h' !! cur =
            Some (node_put VUndef c (to_key seg)
                    match rest with
                    | [] => value
                    | nextSeg :: _ => VRef (step_heap h cur c seg nextSeg).1
                    end).
Proof.
  induction rest as [|nextSeg rest IH]; intros h cur c seg value Hc;
    pose proof (lookup_lt_Some _ _ _ Hc) as Hlt.
  - eexists. split; [by apply putProp_ref|]. split_and!.
    + intros l _ Hne. by rewrite list_lookup_insert_ne.
    + by rewrite length_insert.
    + by apply list_lookup_insert_eq.
  - rewrite (setAtPath_loop_step _ _ _ _ _ _ _ Hc).
    destruct (step_heap_spec h cur c seg nextSeg Hc) as (Hge & Hlt' & Hcur' & Hnew & Hframe).
    destruct (IH _ _ _ nextSeg value Hnew) as (h' & Hrun & Hframe' & Hlen' & _).
    exists h'. split; [done|]. split_and!.
    + intros l Hl Hne. rewrite Hframe' by lia. by apply Hframe.
    + lia.
    + rewrite Hframe' by lia. exact Hcur'.
Qed.

Lemma setAtPath_loop_copied rest :
  ∀ (h0 h : heap) (cur : loc) c orig t seg value h',
    unchanged h0 h → length h0 ≤ cur → h !! cur = Some c →
    (∀ key, node_get VUndef c key = own_get h0 orig key) →
    repr h0 orig t → t = TUndef ∨ is_json t = true →
    setAtPath_loop h (VRef cur) seg rest value = Ok h' →
    copied_along h0 orig h' (VRef cur) seg rest value.
Proof.
  induction rest as [|nextSeg rest IH];
    intros h0 h cur c orig t seg value h' Hu Hcur Hc Hcopy Hr Ht Hrun;
    pose proof (lookup_lt_Some _ _ _ Hc) as Hlt.
  - cbn [setAtPath_loop] in Hrun.
    rewrite (putProp_ref _ _ _ _ _ Hc) in Hrun. injection Hrun as <-.
    exists cur, (node_put VUndef c (to_key seg) value). split_and!; try done.
    + by apply list_lookup_insert_eq.
    + intros key Hne. rewrite node_get_put_ne by done. apply Hcopy.
    + apply node_get_put_eq.
  - destruct (setAtPath_loop_total (nextSeg :: rest) h cur c seg value Hc)
      as (h'' & Hrun' & _ & _ & Hcur'').
    rewrite Hrun in Hrun'. injection Hrun' as <-.
    rewrite (setAtPath_loop_step _ _ _ _ _ _ _ Hc) in Hrun.
    destruct (step_heap_spec h cur c seg nextSeg Hc) as (Hge & Hlt' & _ & Hnew & Hframe).
    set (lh := step_heap h cur c seg nextSeg) in *.
    exists cur, (node_put VUndef c (to_key seg) (VRef lh.1)). split_and!; try done.
    + intros key Hne. rewrite node_get_put_ne by done. apply Hcopy.
    + rewrite node_get_put_eq.
      set (orig' := own_get h0 orig (to_key seg)).
      assert (repr h0 orig' (Tree.get t (to_key seg))) as Hr' by (by apply repr_own_get).
      assert (Tree.get t (to_key seg) = TUndef ∨ is_json (Tree.get t (to_key seg)) = true) as Ht'.
      { destruct Ht as [-> | Ht]; [by left | by apply TreeLemmas.is_json_get]. }
      eapply (IH h0 lh.2 lh.1); try done.
      * intros l c' Hl. pose proof (lookup_lt_Some _ _ _ Hl).
        rewrite Hframe by lia. by apply Hu.
      * lia.
      * intros key. cbn zeta. rewrite Hcopy. fold orig'.
        destruct (nullish orig') eqn:En.
        -- unfold empty_for. destruct orig'; try done;
             destruct (is_number nextSeg); cbn; try done;
             by destruct (array_index key).
        -- rewrite (copy_of_unchanged h0 h orig' _ Hr' Hu).
           by eapply node_get_copy_of.
Qed.

Lemma setAtPath_copied_along (h : heap) (root : val) (troot : tree)
    (seg : segment) (rest : list segment) (value : val) :
  repr h root troot → is_json troot = true →
  ∃ r h', setAtPath h root (seg :: rest) value = Ok (r, h') ∧
          unchanged h h' ∧
          copied_along h root h' r seg rest value.
Proof.
  intros Hr Hjson. cbn [setAtPath]. rewrite shallow_copy_alloc. unfold alloc.
  assert ((h ++ [copy_of h root]) !! length h = Some (copy_of h root)) as Hc.
  { rewrite lookup_app_r by lia. by rewrite Nat.sub_diag. }
  destruct (setAtPath_loop_total rest _ _ _ seg value Hc)
    as (h' & Hrun & Hframe & Hlen & _).
  rewrite Hrun. cbn. exists (VRef (length h)), h'. split_and!; [done | |].
  - intros l c Hl. pose proof (lookup_lt_Some _ _ _ Hl).
    rewrite Hframe; [by apply lookup_app_l_Some | rewrite length_app; lia | lia].
  - eapply (setAtPath_loop_copied rest h (h ++ [copy_of h root])); try done.
    + apply unchanged_app.
    + intros key. eapply node_get_copy_of; eauto.
    + by right.
Qed.

(** [setAtPath] returns, whatever it is given. *)
Lemma setAtPath_total h root path value :
  ∃ r h', setAtPath h root path value = Ok (r, h').
Proof.
  destruct path as [|seg rest]; cbn; [by eexists _, _|].
  rewrite shallow_copy_alloc. unfold alloc.
  destruct (setAtPath_loop_total rest (h ++ [copy_of h root]) (length h)
              (copy_of h root) seg value) as (h' & -> & _).
  { rewrite lookup_app_r by lia. by rewrite Nat.sub_diag. }
  cbn. by eexists _, _.
Qed.


(** ** The guard of [getAtPath] *)

Lemma index_all_throw h e path :
  fold_left (λ acc seg, cur ← acc; getProp h cur seg) path (Throw e) = Throw e.
Proof. by induction path. Qed.

Lemma index_all_cons h root seg rest :
  index_all h root (seg :: rest) =
    match getProp h root seg with
    | Ok c => index_all h c rest
    | Throw e => Throw e
    end.
Proof.
  unfold index_all. cbn. destruct (getProp h root seg); [done|].
  apply index_all_throw.
Qed.


Lemma getAtPath_loop_index_all h cur path :
  getAtPath_loop h cur path =
    Ok match index_all h cur path with Ok w => w | Throw _ => VUndef end.
Proof.
  revert cur. induction path as [|seg rest IH]; intros cur; [done|].
  cbn [getAtPath_loop]. rewrite index_all_cons. unfold getProp.
  destruct (nullish cur); [done|]. cbn. apply IH.
Qed.

Lemma getAtPath_index_all h root path :
  getAtPath h root path =
    Ok match index_all h root path with Ok w => w | Throw _ => VUndef end.
Proof. destruct path; [done|]. apply getAtPath_loop_index_all. Qed.


(** ** Reading the result of [setAtPath] below a segment of its path *)



(** ** The merge of the edits and the fold of the rows *)

Lemma updates_of_eq name color :
  updates_of name color = [("name", VStr name); ("color", VStr color)].
Proof. reflexivity. Qed.

Section put_lemmas.
Context {A : Type}.
Implicit Types (fs : list (string * A)).

Lemma keys_fields_put_named key (v : A) fs :
  array_index key = None →
  keys (fields_put key v fs) = keys fs ++ (if fields_has key fs then [] else [key]).
Proof.
  intros Hk. unfold fields_put. rewrite Hk. destruct (fields_has key fs).
  - by rewrite keys_fields_replace, app_nil_r.
  - unfold keys. by rewrite fmap_app.
Qed.

Lemma fields_has_put_ne key key' (v : A) fs :
  key ≠ key' → fields_has key' (fields_put key v fs) = fields_has key' fs.
Proof. intros. unfold fields_has. by rewrite fields_get_put_ne. Qed.
End put_lemmas.



(** The replacement, with the two edits put into the base of the merge. *)
Lemma replacement_of_updates h currentAtPath rows name color :
  replacement_of h currentAtPath rows (updates_of name color) =
    fields_put "color" (VStr color)
      (fields_put "name" (VStr name)
         (if is_plain_object h currentAtPath then own_props h currentAtPath
          else existing_of rows)).
Proof.
  unfold replacement_of. rewrite updates_of_eq.
  by destruct (is_plain_object h currentAtPath).
Qed.

Lemma replacement_of_name h currentAtPath rows name color :
  fields_get "name" (replacement_of h currentAtPath rows (updates_of name color))
    = Some (VStr name).
Proof.
  rewrite replacement_of_updates, fields_get_put_ne by done. apply fields_get_put_eq.
Qed.

Lemma replacement_of_color h currentAtPath rows name color :
  fields_get "color" (replacement_of h currentAtPath rows (updates_of name color))
    = Some (VStr color).
Proof. rewrite replacement_of_updates. apply fields_get_put_eq. Qed.

Lemma own_props_new h fs : own_props (h ++ [NObj fs]) (VRef (length h)) = fs.
Proof. unfold own_props. rewrite lookup_app_r by lia. by rewrite Nat.sub_diag. Qed.

(** The refreshed rows, for a replacement that carries the two edits. *)
Lemma updatedText_of_edits replacement rows name color :
  fields_get "name" replacement = Some (VStr name) →
  fields_get "color" replacement = Some (VStr color) →
  length (updatedText_of replacement rows) = length rows ∧
  ∀ i row, rows !! i = Some row →
    ∃ row', updatedText_of replacement rows !! i = Some row' ∧
      row_key row' = row_key row ∧ row_type row' = row_type row ∧
      (is_primitive_row row = true → truthy_key (row_key row) = Some "name" →
       row_value row' = VStr name) ∧
      (is_primitive_row row = true → truthy_key (row_key row) = Some "color" →
       row_value row' = VStr color) ∧
      (is_primitive_row row = false ∨ truthy_key (row_key row) = None → row' = row).
Proof.
  intros Hname Hcolor. split; [apply length_map|].
  intros i row Hrow. exists (update_row replacement row).
  split; [unfold updatedText_of; by rewrite list_lookup_fmap, Hrow|].
  assert (∀ k v, truthy_key (row_key row) = Some k → is_primitive_row row = true →
                 fields_get k replacement = Some v →
                 row_value (update_row replacement row) = v) as Hval.
  { intros k v Hk Hp Hv. unfold update_row. rewrite Hk.
    assert (fields_has k replacement = true) as -> by (apply fields_has_true; eauto).
    by rewrite Hp, Hv. }
  split_and!.
  - unfold update_row. by repeat case_match.
  - unfold update_row. by repeat case_match.
  - intros Hp Hk. by eapply Hval.
  - intros Hp Hk. by eapply Hval.
  - unfold update_row. intros [Hp | Hk].
    + destruct (truthy_key _); [|done]. rewrite Hp. by case_match.
    + by rewrite Hk.
Qed.


(** ** [JSON.parse] builds the content it was given *)

Lemma alloc_tree_arr h es ps :
  alloc_tree h (TNode (NArr es ps)) =
    let '(vs, h1) := alloc_all alloc_tree h es in
    let '(qs, h2) := alloc_all alloc_field h1 ps in
    alloc h2 (NArr vs qs).
Proof. reflexivity. Qed.

Lemma alloc_tree_obj h fs :
  alloc_tree h (TNode (NObj fs)) =
    let '(vs, h1) := alloc_all alloc_field h fs in
    alloc h1 (NObj vs).
Proof. reflexivity. Qed.

Lemma alloc_all_spec {A B} (f : heap → A → B * heap) (R : heap → B → A → Prop) xs :
  (∀ h k y x, R h y x → R (h ++ k) y x) →
  Forall (λ x, ∀ h y h', f h x = (y, h') → R h' y x ∧ ∃ k, h' = h ++ k) xs →
  ∀ h ys h', alloc_all f h xs = (ys, h') →
             Forall2 (R h') ys xs ∧ ∃ k, h' = h ++ k.
Proof.
  intros Hmono. induction 1 as [|x xs Hx _ IH]; intros h ys h' E; cbn in E.
  - injection E as <- <-. split; [constructor | by exists []; rewrite app_nil_r].
  - destruct (f h x) as [y h1] eqn:E1.
    destruct (alloc_all f h1 xs) as [ys' h2] eqn:E2.
    injection E as <- <-.
    destruct (Hx _ _ _ E1) as [Hy [k1 ->]].
    destruct (IH _ _ _ E2) as [Hys [k2 ->]].
    split; [|by exists (k1 ++ k2); rewrite app_assoc].
    constructor; [by apply Hmono | done].
Qed.

Lemma repr_app h k v t : repr h v t → repr (h ++ k) v t.
Proof. apply repr_unchanged, unchanged_app. Qed.

Lemma alloc_tree_repr t :
  ∀ h v h', alloc_tree h t = (v, h') → repr h' v t ∧ ∃ k, h' = h ++ k.
Proof.
  induction t as [| | b | n | s | es ps IHes IHps | fs IHfs] using tree_ind';
    intros h v h' E.
  1-5: cbn in E; injection E as <- <-;
       (split; [constructor | by exists []; rewrite app_nil_r]).
  - rewrite alloc_tree_arr in E.
    destruct (alloc_all alloc_tree h es) as [vs h1] eqn:E1.
    destruct (alloc_all alloc_field h1 ps) as [qs h2] eqn:E2.
    injection E as <- <-.
    destruct (alloc_all_spec alloc_tree (λ h v t, repr h v t) es
                (λ h k y x, repr_app h k y x) IHes _ _ _ E1) as [Hvs [k1 ->]].
    destruct (alloc_all_spec alloc_field (λ h q p, field_rel (repr h) q p) ps) with
      (h := h ++ k1) (ys := qs) (h' := h2) as [Hqs [k2 ->]]; [| |done|].
    { intros h0 k y x []. constructor. by apply repr_app. }
    { eapply Forall_impl; [|exact IHps]. intros [key t] IH h0 [key' v] h0' E.
      unfold alloc_field in E. cbn in E.
      destruct (alloc_tree h0 t) as [v' h0''] eqn:Et. injection E as <- <- <-.
      destruct (IH _ _ _ Et) as [Hv Hk]. split; [by constructor | done]. }
    split; [|by exists (k1 ++ k2 ++ [NArr vs qs]); rewrite !app_assoc].
    econstructor.
    + rewrite lookup_app_r by lia. by rewrite Nat.sub_diag.
    + constructor.
      * eapply Forall2_impl; [|exact Hvs]. intros. rewrite <- app_assoc. by apply repr_app.
      * eapply Forall2_impl; [|exact Hqs]. intros ? ? []. constructor. by apply repr_app.
  - rewrite alloc_tree_obj in E.
    destruct (alloc_all alloc_field h fs) as [qs h1] eqn:E1.
    injection E as <- <-.
    destruct (alloc_all_spec alloc_field (λ h q p, field_rel (repr h) q p) fs) with
      (h := h) (ys := qs) (h' := h1) as [Hqs [k1 ->]]; [| |done|].
    { intros h0 k y x []. constructor. by apply repr_app. }
    { eapply Forall_impl; [|exact IHfs]. intros [key t] IH h0 [key' v] h0' E.
      unfold alloc_field in E. cbn in E.
      destruct (alloc_tree h0 t) as [v' h0''] eqn:Et. injection E as <- <- <-.
      destruct (IH _ _ _ Et) as [Hv Hk]. split; [by constructor | done]. }
    split; [|by exists (k1 ++ [NObj qs]); rewrite !app_assoc].
    econstructor.
    + rewrite lookup_app_r by lia. by rewrite Nat.sub_diag.
    + constructor.
      eapply Forall2_impl; [|exact Hqs]. intros ? ? []. constructor. by apply repr_app.
Qed.


(** ** [JSON.stringify] reads the content of a value *)

Lemma Forall2_unique {A B} (R : A → B → Prop) l k1 k2 :
  Forall (λ y, ∀ x y', R x y → R x y' → y = y') k1 →
  Forall2 R l k1 → Forall2 R l k2 → k1 = k2.
Proof.
  intros HF H1. revert k2.
  induction H1 as [|x y l k1 Hxy H1 IH]; intros k2 H2; inversion H2; subst; [done|].
  inversion_clear HF. f_equal; eauto.
Qed.

Lemma Forall2_impl_elem {A B} (R Q : A → B → Prop) l k :
  Forall2 R l k → (∀ x y, y ∈ k → R x y → Q x y) → Forall2 Q l k.
Proof.
  induction 1 as [|x y l k Hxy H IH]; intros HQ; constructor.
  - apply HQ; [by left | done].
  - apply IH. intros x' y' Hy'. apply HQ. by right.
Qed.

Lemma repr_functional h v t1 t2 : repr h v t1 → repr h v t2 → t1 = t2.
Proof.
  revert v t2.
  induction t1 as [| | b | n | s | es ps IHes IHps | fs IHfs] using tree_ind';
    intros v t2 H1 H2; inversion H1 as [| | | | |l c tc Hl Hc]; subst;
    inversion H2 as [| | | | |l' c' tc' Hl' Hc']; subst; try done.
  - rewrite Hl in Hl'. injection Hl' as <-.
    inversion Hc as [vs ? qs ? Hes Hps|]; subst.
    inversion Hc' as [? es' ? ps' Hes' Hps'|]; subst.
    do 2 f_equal.
    + eapply Forall2_unique; [|exact Hes|exact Hes'].
      eapply Forall_impl; [|exact IHes]. intros t IH x y'. apply IH.
    + eapply Forall2_unique; [|exact Hps|exact Hps'].
      eapply Forall_impl; [|exact IHps].
      intros [k t] IH [k1 x] [k2 y'] Hx Hy.
      apply field_rel_inv in Hx as [-> Hx]. apply field_rel_inv in Hy as [-> Hy].
      f_equal. by eapply IH.
  - rewrite Hl in Hl'. injection Hl' as <-.
    inversion Hc as [|qs ? Hfs]; subst.
    inversion Hc' as [|? fs' Hfs']; subst.
    do 2 f_equal.
    eapply Forall2_unique; [|exact Hfs|exact Hfs'].
    eapply Forall_impl; [|exact IHfs].
    intros [k t] IH [k1 x] [k2 y'] Hx Hy.
    apply field_rel_inv in Hx as [-> Hx]. apply field_rel_inv in Hy as [-> Hy].
    f_equal. by eapply IH.
Qed.

Lemma tree_size_elem t (ts : list tree) : t ∈ ts → tree_size t ≤ list_sum (List.map tree_size ts).
Proof.
  induction 1 as [t ts | t t' ts _ IH]; unfold list_sum in *; cbn [List.map fold_right]; lia.
Qed.

Lemma tree_size_field (kv : string * tree) fs :
  kv ∈ fs → tree_size kv.2 ≤ list_sum (List.map (λ kv : string * tree, tree_size kv.2) fs).
Proof.
  induction 1 as [? ? | ? ? ? _ IH]; unfold list_sum in *; cbn [List.map fold_right]; lia.
Qed.

Lemma stack_bound (h : heap) (stack : list loc) :
  NoDup stack → (∀ l, l ∈ stack → l < length h) → length stack ≤ length h.
Proof.
  intros Hnd Hin. transitivity (length (seq 0 (length h))); [|by rewrite length_seq].
  apply submseteq_length, NoDup_submseteq; [done|].
  intros l Hl. apply elem_of_seq. specialize (Hin l Hl). lia.
Qed.

Lemma reify_ref fuel stack h l :
  reify fuel stack h (VRef l) =
    if decide (l ∈ stack) then None
    else match fuel with
         | 0 => None
         | S fuel' =>
             let go := reify fuel' (l :: stack) h in
             let go_field (kv : string * val) := t ← go kv.2; Some (kv.1, t) in
             match h !! l with
             | Some (NArr es ps) =>
                 ts ← mapM go es; qs ← mapM go_field ps; Some (TNode (NArr ts qs))
             | Some (NObj fs) =>
                 qs ← mapM go_field fs; Some (TNode (NObj qs))
             | None => None
             end
         end.
Proof. by destruct fuel. Qed.

Lemma reify_repr t :
  ∀ fuel stack h v,
    repr h v t → NoDup stack →
    (∀ l, l ∈ stack → ∃ t', repr h (VRef l) t' ∧ tree_size t < tree_size t') →
    length h < fuel + length stack →
    reify fuel stack h v = Some t.
Proof.
  induction t as [| | b | n | s | es ps IHes IHps | fs IHfs] using tree_ind';
    intros fuel stack h v Hr Hnd Hstack Hfuel;
    inversion Hr as [| | | | |l c tc Hl Hc]; subst; try by destruct fuel.
  - set (t := TNode (NArr es ps)) in *.
    inversion Hc as [vs ? qs ? Hes Hps|]; subst.
    rewrite reify_ref, decide_False; last first.
    { intros Hin. destruct (Hstack l Hin) as (t' & Hr' & Hlt).
      rewrite (repr_functional _ _ _ _ Hr' Hr) in Hlt. lia. }
    assert (NoDup (l :: stack)) as Hnd'.
    { apply NoDup_cons_2; [|done].
      intros Hin. destruct (Hstack l Hin) as (t' & Hr' & Hlt).
      rewrite (repr_functional _ _ _ _ Hr' Hr) in Hlt. lia. }
    assert (length (l :: stack) ≤ length h) as Hbound.
    { apply stack_bound; [done|]. intros l' [->|Hin]%elem_of_cons.
      - by eapply lookup_lt_Some.
      - destruct (Hstack l' Hin) as (t' & Hr' & _).
        inversion Hr'; subst. by eapply lookup_lt_Some. }
    cbn [length] in Hbound. destruct fuel as [|fuel]; [lia|].
    rewrite Hl. cbn zeta.
    assert (∀ t0, tree_size t0 < tree_size t →
              ∀ l', l' ∈ l :: stack →
                    ∃ t', repr h (VRef l') t' ∧ tree_size t0 < tree_size t') as Hstack'.
    { intros t0 Hlt l' [->|Hin]%elem_of_cons; [by exists t|].
      destruct (Hstack l' Hin) as (t' & Hr' & Hlt'). exists t'. split; [done | lia]. }
    rewrite (mapM_Some_2 _ vs es); last first.
    { eapply Forall2_impl_elem; [exact Hes|]. intros x y Hy Hxy.
      rewrite Forall_forall in IHes. apply IHes; try done.
      - by apply list_elem_of_In.
      - apply Hstack'. pose proof (tree_size_elem _ _ Hy). cbn. lia.
      - cbn [length]. lia. }
    cbn. rewrite (mapM_Some_2 _ qs ps); [done|].
    eapply Forall2_impl_elem; [exact Hps|]. intros [k x] [k' y] Hy Hxy.
    apply field_rel_inv in Hxy as [-> Hxy].
    rewrite Forall_forall in IHps. cbn.
    rewrite (IHps (k', y)); try done.
    + by apply list_elem_of_In.
    + apply Hstack'. pose proof (tree_size_field _ _ Hy). cbn in *. lia.
    + cbn [length]. lia.
  - set (t := TNode (NObj fs)) in *.
    inversion Hc as [|qs ? Hfs]; subst.
    rewrite reify_ref, decide_False; last first.
    { intros Hin. destruct (Hstack l Hin) as (t' & Hr' & Hlt).
      rewrite (repr_functional _ _ _ _ Hr' Hr) in Hlt. lia. }
    assert (NoDup (l :: stack)) as Hnd'.
    { apply NoDup_cons_2; [|done].
      intros Hin. destruct (Hstack l Hin) as (t' & Hr' & Hlt).
      rewrite (repr_functional _ _ _ _ Hr' Hr) in Hlt. lia. }
    assert (length (l :: stack) ≤ length h) as Hbound.
    { apply stack_bound; [done|]. intros l' [->|Hin]%elem_of_cons.
      - by eapply lookup_lt_Some.
      - destruct (Hstack l' Hin) as (t' & Hr' & _).
        inversion Hr'; subst. by eapply lookup_lt_Some. }
    cbn [length] in Hbound. destruct fuel as [|fuel]; [lia|].
    rewrite Hl. cbn zeta.
    assert (∀ t0, tree_size t0 < tree_size t →
              ∀ l', l' ∈ l :: stack →
                    ∃ t', repr h (VRef l') t' ∧ tree_size t0 < tree_size t') as Hstack'.
    { intros t0 Hlt l' [->|Hin]%elem_of_cons; [by exists t|].
      destruct (Hstack l' Hin) as (t' & Hr' & Hlt'). exists t'. split; [done | lia]. }
    rewrite (mapM_Some_2 _ qs fs); [done|].
    eapply Forall2_impl_elem; [exact Hfs|]. intros [k x] [k' y] Hy Hxy.
    apply field_rel_inv in Hxy as [-> Hxy].
    rewrite Forall_forall in IHfs. cbn.
    rewrite (IHfs (k', y)); try done.
    + by apply list_elem_of_In.
    + apply Hstack'. pose proof (tree_size_field _ _ Hy). cbn in *. lia.
    + cbn [length]. lia.
Qed.

(** A value that has a content serialises: the walk neither runs out
    of fuel nor meets a cycle. *)
Lemma content_repr h v t : repr h v t → content h v = Some t.
Proof.
  intros Hr. unfold content. apply reify_repr; [done | constructor | | cbn; lia].
  intros l Hl. by apply elem_of_nil in Hl.
Qed.


(** ** Reading along a path, in a heap that has grown *)

Lemma own_get_unchanged h h' v t key :
  repr h v t → unchanged h h' → own_get h' v key = own_get h v key.
Proof.
  intros Hr Hu. destruct Hr as [| | | | |l c tc Hl Hc]; try done.
  cbn. by rewrite Hl, (Hu _ _ Hl).
Qed.

Lemma getAtPath_loop_unchanged h h' v t path :
  repr h v t → unchanged h h' → getAtPath_loop h' v path = getAtPath_loop h v path.
Proof.
  intros Hr Hu. revert v t Hr. induction path as [|seg rest IH]; intros v t Hr; [done|].
  cbn. destruct (nullish v); [done|]. unfold getProp. destruct (nullish v); [done|].
  cbn. rewrite (own_get_unchanged h h' v t) by done.
  eapply IH. by apply repr_own_get.
Qed.

Lemma getAtPath_unchanged h h' v t path :
  repr h v t → unchanged h h' → getAtPath h' v path = getAtPath h v path.
Proof. intros. destruct path; [done|]. by eapply getAtPath_loop_unchanged. Qed.

Lemma getAtPath_loop_snoc h v path seg :
  getAtPath_loop h v (path ++ [seg]) =
    c ← getAtPath_loop h v path;
    if nullish c then Ok VUndef else getProp h c seg.
Proof.
  revert v. induction path as [|s path IH]; intros v; cbn.
  - unfold getProp. by destruct (nullish v).
  - destruct (nullish v); [done|]. unfold getProp at 1 3.
    destruct (nullish v); [done|]. cbn. apply IH.
Qed.

Lemma getAtPath_snoc h v path seg :
  getAtPath h v (path ++ [seg]) =
    c ← getAtPath h v path;
    if nullish c then Ok VUndef else getProp h c seg.
Proof.
  destruct path as [|s path].
  - cbn. unfold getProp. by destruct (nullish v).
  - apply (getAtPath_loop_snoc h v (s :: path)).
Qed.

(** At the end of the path, the result holds the value written. *)
Lemma copied_along_getAtPath h orig h' new seg rest value :
  copied_along h orig h' new seg rest value →
  getAtPath h' new (seg :: rest) = Ok value.
Proof.
  revert orig new seg. induction rest as [|nextSeg rest IH]; intros orig new seg;
    cbn [copied_along]; intros (l & c & -> & _ & Hl & _ & Hrest).
  - cbn. unfold getProp. cbn. by rewrite Hl, Hrest.
  - apply IH in Hrest. cbn in *. unfold getProp at 1. cbn. by rewrite Hl.
Qed.


(** ** The run of [save] *)

Ltac msimpl :=
  unfold alloc; cbn -[content alloc_tree setAtPath getAtPath own_props replacement_of
        updatedText_of updates_of].

Ltac run_save :=
  unfold save, try_catch, getContents, setContents, setSelectedNode, setVisible,
    console_error, parse, stringify, new_object, log, get_contents, get_heap,
    set_heap, modify, lift, throw, mbind, M_bind, mret, M_ret;
  msimpl.

Section save_lemmas.
Context (JSON_parse : string → option tree) (JSON_print : tree → string).
Context (persists : string → bool).

Abbreviation save := (save JSON_parse JSON_print persists).

(** When the path resolves to an object, [save] writes the document
    in which that object is merged with the edits, and the written
    document shares with the parsed one every property of the object
    that the edits leave alone. *)
Lemma save_merges_object (st : Store) (selected : NodeData) (name color : string)
    (doc : tree) (tfs : list (string * tree)) :
  let path := default [] (node_path selected) in
  let rows := default [] (node_text selected) in
  let newdoc :=
    Tree.setAtPath doc path
      (TNode (NObj (fields_put "color" (TStr color) (fields_put "name" (TStr name) tfs)))) in
  JSON_parse (contents st) = Some doc → is_json doc = true →
  Tree.getAtPath doc path = TNode (NObj tfs) →
  ∃ h' json updatedJson replacement,
    let node' := {| node_path := node_path selected;
                    node_text := Some (updatedText_of replacement rows) |} in
    save (Some selected) name color st =
      (Ok (),
       if persists (JSON_print newdoc) then
         {| js_heap := h'; contents := JSON_print newdoc; selectedNode := Some node';
            visible := fields_put "NodeModal" true
                         (fields_put "NodeEditModal" false (visible st));
            trace := trace st ++ [GetContents; SetSelectedNode node';
                                  SetContents (JSON_print newdoc);
                                  SetVisible "NodeEditModal" false;
                                  SetVisible "NodeModal" true] |}
       else
         {| js_heap := h'; contents := contents st; selectedNode := Some node';
            visible := visible st;
            trace := trace st ++ [GetContents; SetSelectedNode node';
                                  SetContents (JSON_print newdoc);
                                  ConsoleError PersistError] |}) ∧
    fields_get "name" replacement = Some (VStr name) ∧
    fields_get "color" replacement = Some (VStr color) ∧
    repr h' json doc ∧ repr h' updatedJson newdoc ∧
    ∀ k, k ≠ "name" → k ≠ "color" →
         getAtPath h' updatedJson (path ++ [SStr k]) = getAtPath h' json (path ++ [SStr k]).
Proof.
  intros path rows newdoc Hparse Hjson Hcur.
  destruct (alloc_tree (js_heap st) doc) as [json h1] eqn:Ealloc.
  destruct (alloc_tree_repr _ _ _ _ Ealloc) as [Hr1 _].
  set (h2 := h1 ++ [NObj (updates_of name color)]).
  assert (repr h2 json doc) as Hr2 by (by apply repr_app).
  destruct (getAtPath_repr h2 json doc path Hr2) as (cur & Hget & Hrcur).
  rewrite Hcur in Hrcur.
  inversion Hrcur as [| | | | |lc c tc Hlc Hc]; subst.
  inversion Hc as [|fs ? Hfs]; subst.
  assert (is_plain_object h2 (VRef lc) = true) as Hplain.
  { unfold is_plain_object, isArray. by rewrite Hlc. }
  assert (own_props h2 (VRef (length h1)) = updates_of name color) as Hupd.
  { unfold own_props, h2. rewrite lookup_app_r by lia. by rewrite Nat.sub_diag. }
  set (rf := fields_put "color" (VStr color) (fields_put "name" (VStr name) fs)).
  assert (replacement_of h2 (VRef lc) rows (updates_of name color) = rf) as Hrepl.
  { unfold replacement_of. rewrite Hplain, updates_of_eq. unfold own_props.
    by rewrite Hlc. }
  set (h3 := h2 ++ [NObj rf]).
  assert (own_props h3 (VRef (length h2)) = rf) as Hrf.
  { unfold own_props, h3. rewrite lookup_app_r by lia. by rewrite Nat.sub_diag. }
  set (trepl := TNode (NObj (fields_put "color" (TStr color)
                               (fields_put "name" (TStr name) tfs)))) in *.
  assert (repr h3 (VRef (length h2)) trepl) as Hrrepl.
  { econstructor.
    - unfold h3. rewrite lookup_app_r by lia. by rewrite Nat.sub_diag.
    - constructor. apply fields_put_rel; [constructor|].
      apply fields_put_rel; [constructor|].
      eapply Forall2_impl; [|exact Hfs]. intros ? ? []. constructor. by apply repr_app. }
  assert (repr h3 json doc) as Hr3 by (by apply repr_app).
  destruct (setAtPath_repr h3 json path (VRef (length h2)) doc trepl Hr3 Hrrepl)
    as (updatedJson & h4 & Hset & Hr4 & Hu34).
  pose proof (content_repr _ _ _ Hr4) as Hcontent.
  exists h4, json, updatedJson, rf. cbn zeta. split_and!.
  - subst path rows newdoc.
    run_save. rewrite Hparse. msimpl. rewrite Ealloc. msimpl.
    fold h2. rewrite Hget. msimpl. rewrite Hupd, Hrepl. fold h3.
    rewrite Hrf, Hset. msimpl. rewrite Hcontent. msimpl.
    destruct (persists (JSON_print _)); msimpl;
      by rewrite <- !(app_assoc (trace st)).
  - unfold rf. rewrite fields_get_put_ne by done. apply fields_get_put_eq.
  - apply fields_get_put_eq.
  - eapply repr_unchanged; [exact Hu34 | done].
  - done.
  - intros k Hn Hc'.
    assert (unchanged h2 h4) as Hu24.
    { eapply unchanged_trans; [apply unchanged_app | exact Hu34]. }
    rewrite !getAtPath_snoc.
    rewrite (getAtPath_unchanged h2 h4 json doc path Hr2 Hu24), Hget.
    assert (getAtPath h4 updatedJson path = Ok (VRef (length h2))) as ->.
    { destruct path as [|seg rest] eqn:Epath.
      - cbn in Hset. by injection Hset as <- <-.
      - destruct (setAtPath_copied_along h3 json doc seg rest (VRef (length h2)) Hr3 Hjson)
          as (r & h' & Hset' & _ & Hcopied).
        rewrite Hset in Hset'. injection Hset' as <- <-.
        by eapply copied_along_getAtPath. }
    cbn. unfold getProp. cbn.
    rewrite (Hu24 _ _ Hlc).
    assert (h4 !! length h2 = Some (NObj rf)) as ->.
    { apply Hu34. unfold h3. rewrite lookup_app_r by lia. by rewrite Nat.sub_diag. }
    cbn. unfold rf. by rewrite !fields_get_put_ne.
Qed.
End save_lemmas.


(** ** The label of a path, read back *)

Lemma string_app_cons x (a b : string) : String x a +:+ b = String x (a +:+ b).
Proof. done. Qed.

Lemma string_app_assoc (a b c : string) : (a +:+ b) +:+ c = a +:+ b +:+ c.
Proof.
  induction a as [|x a IH]; [done|]. rewrite !string_app_cons. by f_equal.
Qed.

Lemma concat_bracketed seg p :
  "[" +:+ String.concat "][" (segment_label <$> seg :: p) +:+ "]" = bracketed (seg :: p).
Proof.
  revert seg. induction p as [|seg' p IH]; intros seg; [done|].
  change (segment_label <$> seg :: seg' :: p)
    with (segment_label seg :: (segment_label <$> seg' :: p)).
  cbn [String.concat]. destruct (segment_label <$> seg' :: p) eqn:E; [done|].
  rewrite <- E.
  change (bracketed (seg :: seg' :: p))
    with ("[" +:+ segment_label seg +:+ "]" +:+ bracketed (seg' :: p)).
  rewrite <- IH. by rewrite !string_app_assoc.
Qed.

Lemma jsonPathToString_bracketed path :
  jsonPathToString path = "$" +:+ bracketed (default [] path).
Proof.
  destruct path as [[|seg p]|]; try done.
  unfold jsonPathToString. cbn [default from_option id].
  by rewrite <- concat_bracketed.
Qed.

Lemma bracketed_app p q : bracketed (p ++ q) = bracketed p +:+ bracketed q.
Proof.
  induction p as [|seg p IH]; [done|].
  cbn [app bracketed foldr]. fold (bracketed (p ++ q)). fold (bracketed p).
  by rewrite IH, !string_app_assoc.
Qed.

Lemma free_of_split c s1 s2 r1 r2 :
  free_of c s1 = true → free_of c s2 = true →
  s1 +:+ String c r1 = s2 +:+ String c r2 → s1 = s2 ∧ r1 = r2.
Proof.
  revert s2. induction s1 as [|a s1 IH]; intros [|b s2]; cbn [free_of];
    rewrite ?string_app_cons; change ("" +:+ ?s) with s.
  - by intros _ _ [= ->].
  - intros _ [Hb _]%andb_true_iff [= <- _].
    by rewrite bool_decide_eq_true_2 in Hb.
  - intros [Ha _]%andb_true_iff _ [= -> _].
    by rewrite bool_decide_eq_true_2 in Ha.
  - intros [_ H1]%andb_true_iff [_ H2]%andb_true_iff [= -> E].
    destruct (IH s2 H1 H2 E) as [-> ->]. done.
Qed.

Lemma free_of_digits c d :
  (c = "]"%char ∨ c = ascii_of_nat 34) → free_of c (NilEmpty.string_of_uint d) = true.
Proof.
  intros Hc. induction d; cbn; try done; rewrite IHd, andb_true_r;
    apply negb_true_iff, bool_decide_eq_false; by destruct Hc as [-> | ->].
Qed.

Lemma free_of_to_key c n :
  (c = "]"%char ∨ c = ascii_of_nat 34) → free_of c (to_key (SNum n)) = true.
Proof.
  intros Hc. unfold to_key, NilZero.string_of_uint.
  destruct (N.to_uint n) eqn:E; try (rewrite <- E; by apply free_of_digits).
  cbn. rewrite andb_true_r.
  apply negb_true_iff, bool_decide_eq_false; by destruct Hc as [-> | ->].
Qed.

Lemma to_key_nonempty n : to_key (SNum n) ≠ "".
Proof.
  unfold to_key, NilZero.string_of_uint. by destruct (N.to_uint n).
Qed.

(** A bracket group is read back in one way. *)
Lemma bracket_group_inj seg1 seg2 r1 r2 :
  (∀ s, seg1 = SStr s → free_of (ascii_of_nat 34) s = true) →
  (∀ s, seg2 = SStr s → free_of (ascii_of_nat 34) s = true) →
  "[" +:+ segment_label seg1 +:+ "]" +:+ r1 = "[" +:+ segment_label seg2 +:+ "]" +:+ r2 →
  seg1 = seg2 ∧ r1 = r2.
Proof.
  intros H1 H2 E. injection E as E.
  destruct seg1 as [n1|s1], seg2 as [n2|s2]; cbn [segment_label] in E.
  - change ("]" +:+ ?r) with (String "]" r) in E.
    apply free_of_split in E as [E ->]; try (apply free_of_to_key; by left).
    split; [|done]. f_equal. by apply to_key_num_inj.
  - exfalso. pose proof (free_of_to_key (ascii_of_nat 34) n1 (or_intror eq_refl)) as F.
    pose proof (to_key_nonempty n1) as Hne.
    destruct (to_key (SNum n1)) as [|a k]; [done|].
    cbn in E, F. injection E as -> _. by rewrite bool_decide_eq_true_2 in F.
  - exfalso. pose proof (free_of_to_key (ascii_of_nat 34) n2 (or_intror eq_refl)) as F.
    pose proof (to_key_nonempty n2) as Hne.
    destruct (to_key (SNum n2)) as [|a k]; [done|].
    cbn in E, F. injection E as <- _. by rewrite bool_decide_eq_true_2 in F.
  - rewrite !string_app_assoc in E. apply (inj (String.append dquote)) in E.
    change (dquote +:+ ?r) with (String (ascii_of_nat 34) r) in E.
    apply free_of_split in E as [-> E]; [| by apply H1 | by apply H2].
    by apply (inj (String.append "]")) in E as ->.
Qed.

Lemma bracketed_inj p q :
  quote_free p = true → quote_free q = true → bracketed p = bracketed q → p = q.
Proof.
  revert q. induction p as [|s1 p IH]; intros [|s2 q] Hp Hq E; try done.
  cbn [bracketed foldr] in E. fold (bracketed p) in E. fold (bracketed q) in E.
  cbn [quote_free forallb] in Hp, Hq.
  apply andb_true_iff in Hp as [Hs1 Hp]. apply andb_true_iff in Hq as [Hs2 Hq].
  apply bracket_group_inj in E as [-> E].
  - f_equal. by apply IH.
  - by intros s ->.
  - by intros s ->.
Qed.


(** ** Reading back what [setAtPath] wrote *)

Lemma getAtPath_as_loop h root path : getAtPath h root path = getAtPath_loop h root path.
Proof. by destruct path. Qed.

Lemma getAtPath_loop_undef h path : getAtPath_loop h VUndef path = Ok VUndef.
Proof. by destruct path. Qed.

Lemma getAtPath_loop_app h v p q :
  getAtPath_loop h v (p ++ q) = c ← getAtPath_loop h v p; getAtPath_loop h c q.
Proof.
  revert v. induction p as [|seg p IH]; intros v; [done|].
  cbn [app getAtPath_loop]. destruct (nullish v) eqn:E.
  - cbn. by rewrite getAtPath_loop_undef.
  - unfold getProp. rewrite E. cbn. apply IH.
Qed.

Lemma setAtPath_loop_read rest :
  ∀ (h : heap) (cur : loc) c seg value h',
    h !! cur = Some c →
    setAtPath_loop h (VRef cur) seg rest value = Ok h' →
    getAtPath_loop h' (VRef cur) (seg :: rest) = Ok value.
Proof.
  induction rest as [|nextSeg rest IH]; intros h cur c seg value h' Hc Hrun.
  - destruct (setAtPath_loop_total [] h cur c seg value Hc) as (h'' & Hrun' & _ & _ & Hcur).
    rewrite Hrun in Hrun'. injection Hrun' as <-.
    cbn [getAtPath_loop nullish]. by rewrite (getProp_ref _ _ _ _ Hcur), node_get_put_eq.
  - destruct (setAtPath_loop_total (nextSeg :: rest) h cur c seg value Hc)
      as (h'' & Hrun' & _ & _ & Hcur).
    rewrite Hrun in Hrun'. injection Hrun' as <-.
    cbn [getAtPath_loop nullish]. rewrite (getProp_ref _ _ _ _ Hcur), node_get_put_eq.
    cbn [mbind result_bind].
    rewrite (setAtPath_loop_step _ _ _ _ _ _ _ Hc) in Hrun.
    destruct (step_heap_spec h cur c seg nextSeg Hc) as (_ & _ & _ & Hnew & _).
    by eapply IH.
Qed.

Lemma setAtPath_spec h root path value :
  ∃ r h', setAtPath h root path value = Ok (r, h') ∧
          unchanged h h' ∧
          getAtPath h' r path = Ok value ∧
          match path with
          | [] => r = value ∧ h' = h
          | _ => r = VRef (length h) ∧
                 ∃ c, h' !! length h = Some c ∧ node_is_array c = isArray h root
          end.
Proof.
  destruct path as [|seg rest].
  - exists value, h. split_and!; try done. apply unchanged_refl.
  - unfold setAtPath. rewrite shallow_copy_alloc. unfold alloc.
    set (h1 := h ++ [copy_of h root]).
    assert (h1 !! length h = Some (copy_of h root)) as Hc.
    { unfold h1. rewrite lookup_app_r by lia. by rewrite Nat.sub_diag. }
    destruct (setAtPath_loop_total rest h1 (length h) _ seg value Hc)
      as (h' & Hrun & Hframe & _ & Hcur).
    rewrite Hrun. exists (VRef (length h)), h'. split_and!; try done.
    + intros l c Hl. pose proof (lookup_lt_Some _ _ _ Hl).
      rewrite Hframe; [| unfold h1; rewrite length_app; cbn; lia | lia].
      unfold h1. by rewrite lookup_app_l.
    + rewrite getAtPath_as_loop. exact (setAtPath_loop_read rest h1 (length h) _ seg value _ Hc Hrun).
    + eexists. split; [exact Hcur|]. rewrite node_is_array_put.
      unfold copy_of. by destruct (isArray h root).
Qed.

(** ** Reading off the path that [setAtPath] wrote *)

Lemma copied_along_off_path h h' seg seg' rest rest' value pre :
  unchanged h h' → to_key seg ≠ to_key seg' →
  ∀ orig t new s0 rest0,
    s0 :: rest0 = pre ++ seg :: rest →
    copied_along h orig h' new s0 rest0 value →
    repr h orig t → t = TUndef ∨ is_json t = true →
    getAtPath_loop h' new (pre ++ seg' :: rest') = getAtPath_loop h orig (pre ++ seg' :: rest').
Proof.
  intros Hu Hne. induction pre as [|s pre IH]; intros orig t new s0 rest0 E Hcopied Hr Ht.
  - cbn [app] in *. injection E as -> ->.
    destruct rest as [|n r]; destruct Hcopied as (l & c & -> & _ & Hl & Hoff & _);
      cbn [getAtPath_loop nullish]; rewrite (getProp_ref _ _ _ _ Hl), Hoff by done; cbn.
    all: destruct (nullish orig) eqn:En;
      [ destruct orig; try done; cbn; apply getAtPath_loop_undef
      | unfold getProp; rewrite En; cbn;
        eapply getAtPath_loop_unchanged; [by apply repr_own_get | done] ].
  - cbn [app] in *. injection E as -> ->.
    destruct (pre ++ seg :: rest) as [|n r] eqn:E; [by destruct pre|].
    destruct Hcopied as (l & c & -> & _ & Hl & _ & Hnext).
    cbn [getAtPath_loop nullish]. rewrite (getProp_ref _ _ _ _ Hl). cbn.
    rewrite (IH (own_get h orig (to_key s)) (Tree.get t (to_key s)) _ n r eq_refl Hnext).
    + destruct (nullish orig) eqn:En.
      * destruct orig; try done; cbn; by destruct pre.
      * unfold getProp. by rewrite En.
    + by apply repr_own_get.
    + destruct Ht as [-> | Ht]; [by left | by apply TreeLemmas.is_json_get].
Qed.

(** ** Writing twice at the same path *)

Module TreeLaws.
Import Tree TreeLemmas.

Lemma put_copy_put t key x y :
  put (shallow_copy (put (shallow_copy t) key x)) key y = put (shallow_copy t) key y.
Proof.
  unfold shallow_copy.
  destruct (copy_of t) as [es ps|fs] eqn:E.
  - assert (ps = []) as ->.
    { destruct t as [| | | | |[]]; cbn in E; congruence. }
    cbn. destruct (array_index key) as [i|] eqn:Ei; cbn; rewrite Ei.
    + by rewrite elems_set_set.
    + done.
  - cbn. by rewrite fields_put_put.
Qed.

(** Through the copy, the key reads what was put there, unless the
    copy dropped it: a named property of an array, which the copy of
    the original lacks as well. *)
Lemma get_copy_put t key x :
  get (shallow_copy (put (shallow_copy t) key x)) key = x ∨
  get (shallow_copy (put (shallow_copy t) key x)) key = TUndef ∧
  get (shallow_copy t) key = TUndef.
Proof.
  unfold shallow_copy.
  destruct (copy_of t) as [es ps|fs] eqn:E.
  - assert (ps = []) as ->.
    { destruct t as [| | | | |[]]; cbn in E; congruence. }
    cbn. destruct (array_index key) as [i|] eqn:Ei; cbn; rewrite Ei.
    + left. apply elems_set_lookup_eq.
    + by right.
  - left. cbn. by rewrite fields_get_put_eq.
Qed.

Lemma nullish_setAtPath t seg rest v : nullish (setAtPath t (seg :: rest) v) = false.
Proof. by destruct rest. Qed.

Lemma setAtPath_setAtPath path :
  ∀ t v w, setAtPath (setAtPath t path v) path w = setAtPath t path w.
Proof.
  induction path as [|seg rest IH]; intros t v w; [done|].
  destruct rest as [|nextSeg rest].
  - rewrite !setAtPath_last. apply put_copy_put.
  - rewrite (setAtPath_cons t _ _ _ v), (setAtPath_cons t _ _ _ w),
      (setAtPath_cons (put _ _ _)).
    rewrite put_copy_put. f_equal.
    destruct (get_copy_put t (to_key seg)
                (setAtPath (or_empty (get (shallow_copy t) (to_key seg)) nextSeg)
                   (nextSeg :: rest) v)) as [-> | [-> E]].
    + unfold or_empty at 1. rewrite nullish_setAtPath. apply IH.
    + by rewrite E.
Qed.

Lemma getAtPath_setAtPath path :
  ∀ t v, getAtPath (setAtPath t path v) path = v.
Proof.
  induction path as [|seg rest IH]; intros t v; [done|].
  rewrite getAtPath_cons. destruct rest as [|nextSeg rest].
  - rewrite setAtPath_last. apply get_put_copy.
  - rewrite setAtPath_cons, get_put_copy. apply IH.
Qed.

(** Written into [null] or [undefined], a path leaves an object with
    one key. *)
Lemma setAtPath_nullish t seg rest v :
  nullish t = true →
  setAtPath t (seg :: rest) v =
    TNode (NObj [(to_key seg,
                  match rest with
                  | [] => v
                  | nextSeg :: rest' => chain nextSeg rest' v
                  end)]).
Proof.
  intros Ht.
  assert (shallow_copy t = TNode (NObj [])) as Hc by (by destruct t).
  assert (∀ x, put (TNode (NObj [])) (to_key seg) x = TNode (NObj [(to_key seg, x)])) as Hput.
  { intros x. cbn. unfold fields_put. cbn. by destruct (array_index _). }
  destruct rest as [|nextSeg rest].
  - by rewrite setAtPath_last, Hc, Hput.
  - rewrite setAtPath_cons, Hc, Hput. cbn [get node_get fields_get default from_option].
    unfold or_empty. cbn [nullish]. by rewrite setAtPath_empty_for.
Qed.

(** Below a string there is no container. *)
Lemma getAtPath_string s path c : getAtPath (TStr s) path ≠ TNode c.
Proof.
  revert s. induction path as [|seg rest IH]; intros s; [done|].
  rewrite getAtPath_cons. cbn [get]. unfold char_at.
  destruct (numeric_index _); [|by rewrite getAtPath_undef].
  destruct (string_chars s !! _); cbn; [apply IH | by rewrite getAtPath_undef].
Qed.
End TreeLaws.


(** ** The document that [save] writes *)

Lemma prim_tree_repr h v : is_ref v = false → repr h v (prim_tree v).
Proof. destruct v; try done; constructor. Qed.

Lemma existing_of_rel h rows :
  rows_primitive rows = true →
  Forall2 (field_rel (repr h)) (existing_of rows) (existing_tree rows).
Proof.
  induction rows as [|row rows IH] using rev_ind; [constructor|].
  unfold rows_primitive. rewrite forallb_app. intros [H1 H2]%andb_true_iff.
  cbn in H2. rewrite andb_true_r in H2. apply negb_true_iff in H2.
  unfold existing_of, existing_tree. rewrite !fold_left_app. cbn [fold_left].
  fold (existing_of rows). fold (existing_tree rows).
  destruct (is_primitive_row row); [|by apply IH].
  destruct (truthy_key (row_key row)); [|by apply IH].
  apply fields_put_rel; [by apply prim_tree_repr | by apply IH].
Qed.

Lemma is_plain_object_repr h v t : repr h v t → is_plain_object h v = is_object t.
Proof.
  intros Hr. destruct Hr as [| | b | n | s | l c tc Hl Hc]; try done.
  - by destruct b.
  - unfold is_plain_object. cbn. by destruct (n =? 0)%Z.
  - unfold is_plain_object. cbn. by case_bool_decide.
  - unfold is_plain_object, isArray. rewrite Hl. by destruct Hc.
Qed.

Section save_run_lemmas.
Context (JSON_parse : string → option tree) (JSON_print : tree → string).
Context (persists : string → bool).

Lemma save_run (st : Store) (selected : NodeData) (name color : string) (doc : tree) :
  let path := default [] (node_path selected) in
  let rows := default [] (node_text selected) in
  let tfs := edited name color (base_of (Tree.getAtPath doc path) rows) in
  let newdoc := saved_document doc selected name color in
  JSON_parse (contents st) = Some doc →
  is_object (Tree.getAtPath doc path) = true ∨ rows_primitive rows = true →
  ∃ h' rf,
    let node' := {| node_path := node_path selected;
                    node_text := Some (updatedText_of rf rows) |} in
    save JSON_parse JSON_print persists (Some selected) name color st =
      (Ok (),
       if persists (JSON_print newdoc) then
         {| js_heap := h'; contents := JSON_print newdoc; selectedNode := Some node';
            visible := fields_put "NodeModal" true
                         (fields_put "NodeEditModal" false (visible st));
            trace := trace st ++ [GetContents; SetSelectedNode node';
                                  SetContents (JSON_print newdoc);
                                  SetVisible "NodeEditModal" false;
                                  SetVisible "NodeModal" true] |}
       else
         {| js_heap := h'; contents := contents st; selectedNode := Some node';
            visible := visible st;
            trace := trace st ++ [GetContents; SetSelectedNode node';
                                  SetContents (JSON_print newdoc);
                                  ConsoleError PersistError] |}) ∧
    Forall2 (field_rel (repr h')) rf tfs.
Proof.
  intros path rows tfs newdoc Hparse Hrows.
  destruct (alloc_tree (js_heap st) doc) as [json h1] eqn:Ealloc.
  destruct (alloc_tree_repr _ _ _ _ Ealloc) as [Hr1 _].
  set (h2 := h1 ++ [NObj (updates_of name color)]).
  assert (repr h2 json doc) as Hr2 by (by apply repr_app).
  destruct (getAtPath_repr h2 json doc path Hr2) as (cur & Hget & Hrcur).
  assert (own_props h2 (VRef (length h1)) = updates_of name color) as Hupd.
  { unfold own_props, h2. rewrite lookup_app_r by lia. by rewrite Nat.sub_diag. }
  set (rf := replacement_of h2 cur rows (updates_of name color)).
  assert (Forall2 (field_rel (repr h2)) rf tfs) as Hrf2.
  { unfold rf, tfs, edited. rewrite replacement_of_updates.
    apply fields_put_rel; [constructor|]. apply fields_put_rel; [constructor|].
    rewrite (is_plain_object_repr _ _ _ Hrcur).
    destruct (is_object (Tree.getAtPath doc path)) eqn:Eobj.
    - pose proof (repr_own_props _ _ _ Hrcur) as Hp.
      unfold base_of. by destruct (Tree.getAtPath doc path) as [| | | | |[]].
    - destruct Hrows as [|Hrows]; [done|].
      assert (base_of (Tree.getAtPath doc path) rows = existing_tree rows) as ->.
      { unfold base_of. by destruct (Tree.getAtPath doc path) as [| | | | |[]]. }
      by apply existing_of_rel. }
  set (h3 := h2 ++ [NObj rf]).
  assert (own_props h3 (VRef (length h2)) = rf) as Hrf.
  { unfold own_props, h3. rewrite lookup_app_r by lia. by rewrite Nat.sub_diag. }
  assert (repr h3 (VRef (length h2)) (TNode (NObj tfs))) as Hrrepl.
  { econstructor.
    - unfold h3. rewrite lookup_app_r by lia. by rewrite Nat.sub_diag.
    - constructor. eapply Forall2_impl; [|exact Hrf2].
      intros ? ? []. constructor. by apply repr_app. }
  assert (repr h3 json doc) as Hr3 by (by apply repr_app).
  destruct (setAtPath_repr h3 json path (VRef (length h2)) doc _ Hr3 Hrrepl)
    as (updatedJson & h4 & Hset & Hr4 & Hu34).
  pose proof (content_repr _ _ _ Hr4) as Hcontent.
  exists h4, rf. cbn zeta. split.
  - subst path rows tfs newdoc. unfold saved_document.
    run_save. rewrite Hparse. msimpl. rewrite Ealloc. msimpl.
    fold h2. rewrite Hget. msimpl. rewrite Hupd. fold rf. fold h3.
    rewrite Hrf, Hset. msimpl. rewrite Hcontent. msimpl.
    destruct (persists (JSON_print _)); msimpl;
      by rewrite <- !(app_assoc (trace st)).
  - eapply Forall2_impl; [|exact Hrf2]. intros ? ? []. constructor.
    eapply repr_unchanged; [|done].
    eapply unchanged_trans; [apply unchanged_app | exact Hu34].
Qed.
End save_run_lemmas.

Module TreeFrame.
Import Tree TreeLemmas TreeLaws.

Lemma get_put_copy_ne t key key' x :
  key ≠ key' → get (put (shallow_copy t) key x) key' = get (shallow_copy t) key'.
Proof. intros. by apply get_put_ne. Qed.

(** Off the written path, the content is what it was. *)
Lemma getAtPath_setAtPath_off pre :
  ∀ t seg seg' rest rest' v,
    is_json t = true → to_key seg ≠ to_key seg' →
    getAtPath (setAtPath t (pre ++ seg :: rest) v) (pre ++ seg' :: rest') =
      getAtPath t (pre ++ seg' :: rest').
Proof.
  induction pre as [|s pre IH]; intros t seg seg' rest rest' v Ht Hne.
  - cbn [app]. rewrite !getAtPath_cons.
    assert (∃ x, setAtPath t (seg :: rest) v = put (shallow_copy t) (to_key seg) x)
      as [x ->] by (destruct rest; by eexists).
    by rewrite get_put_copy_ne, get_shallow_copy_json.
  - cbn [app]. rewrite !getAtPath_cons.
    destruct (pre ++ seg :: rest) as [|n r] eqn:E; [by destruct pre|].
    rewrite setAtPath_cons, get_put_copy, <- E, get_shallow_copy_json by done.
    rewrite IH; [| |done].
    + unfold or_empty. destruct (nullish (get t (to_key s))) eqn:En; [|done].
      rewrite getAtPath_empty_for by (by destruct pre).
      rewrite getAtPath_nullish; [done | done | by destruct pre].
    + apply is_json_or_empty. by apply is_json_get.
Qed.

(** A path that resolves to a container runs through no string. *)
Lemma getAtPath_node_no_string t path c :
  getAtPath t path = TNode c →
  ∀ pre seg post s, path = pre ++ seg :: post → getAtPath t pre ≠ TStr s.
Proof.
  intros Hres pre seg post s -> E.
  rewrite getAtPath_app, E in Hres. by eapply getAtPath_string.
Qed.
End TreeFrame.

(** ** The merge, as content *)

Lemma edited_name name color base : fields_get "name" (edited name color base) = Some (TStr name).
Proof. unfold edited. rewrite fields_get_put_ne by done. apply fields_get_put_eq. Qed.

Lemma edited_color name color base :
  fields_get "color" (edited name color base) = Some (TStr color).
Proof. apply fields_get_put_eq. Qed.

Lemma edited_other name color base k :
  k ≠ "name" → k ≠ "color" → fields_get k (edited name color base) = fields_get k base.
Proof. intros. unfold edited. by rewrite !fields_get_put_ne. Qed.

Lemma edited_keys name color base :
  keys (edited name color base) =
    keys base ++ (if fields_has "name" base then [] else ["name"])
              ++ (if fields_has "color" base then [] else ["color"]).
Proof.
  unfold edited. rewrite !keys_fields_put_named by done.
  rewrite fields_has_put_ne by done. by rewrite <- app_assoc.
Qed.

Lemma edited_id name color base :
  fields_get "name" base = Some (TStr name) → fields_get "color" base = Some (TStr color) →
  edited name color base = base.
Proof.
  intros Hn Hc. unfold edited. rewrite (fields_put_id "name") by done.
  by apply fields_put_id.
Qed.

Lemma edited_edited name color base :
  edited name color (edited name color base) = edited name color base.
Proof. apply edited_id; [apply edited_name | apply edited_color]. Qed.

Lemma fields_get_existing_tree k rows :
  fields_get k (existing_tree rows) =
    (λ row, prim_tree (row_value row)) <$> list.last (List.filter (feeds k) rows).
Proof.
  induction rows as [|row rows IH] using rev_ind; [done|].
  unfold existing_tree. rewrite fold_left_app. cbn [fold_left]. fold (existing_tree rows).
  rewrite List.filter_app. cbn [List.filter]. unfold feeds at 2.
  destruct (is_primitive_row row); cbn [andb].
  - destruct (truthy_key (row_key row)) as [k'|] eqn:Ek.
    + destruct (decide (k' = k)) as [->|Hne].
      * rewrite bool_decide_eq_true_2 by done. rewrite last_snoc.
        by rewrite fields_get_put_eq.
      * rewrite bool_decide_eq_false_2 by congruence.
        by rewrite app_nil_r, fields_get_put_ne.
    + rewrite bool_decide_eq_false_2 by done. by rewrite app_nil_r.
  - by rewrite app_nil_r.
Qed.

Lemma saved_document_at_path doc selected name color :
  Tree.getAtPath (saved_document doc selected name color) (default [] (node_path selected)) =
    TNode (NObj (edited name color
                   (base_of (Tree.getAtPath doc (default [] (node_path selected)))
                      (default [] (node_text selected))))).
Proof. apply TreeLaws.getAtPath_setAtPath. Qed.

(** ** Refreshing the rows *)

Lemma update_row_idem replacement row :
  update_row replacement (update_row replacement row) = update_row replacement row.
Proof.
  unfold update_row at 2.
  destruct (truthy_key (row_key row)) as [k|] eqn:Ek.
  - destruct (fields_has k replacement) eqn:Eh.
    + destruct (is_primitive_row row) eqn:Ep.
      * unfold update_row. cbn. rewrite Ek, Eh.
        unfold is_primitive_row in *. cbn. by rewrite Ep.
      * unfold update_row. by rewrite Ek, Eh, Ep.
    + unfold update_row. by rewrite Ek, Eh.
  - unfold update_row. by rewrite Ek.
Qed.

Lemma node_in_model_run doc selected :
  node_in_model doc selected = true →
  is_object (Tree.getAtPath doc (default [] (node_path selected))) = true ∨
  rows_primitive (default [] (node_text selected)) = true.
Proof.
  unfold node_in_model. intros [H | H]%orb_true_iff; [by left|]. right.
  apply andb_true_iff in H as [H _]. by apply andb_true_iff in H as [_ H].
Qed.

(** ** The form and the rows *)

Lemma input_of_string row s :
  row_value <$> row = Some (VStr s) → input_of row = Some s.
Proof. destruct row as [r|]; [|done]. cbn. by intros [= ->]. Qed.

Lemma saved_document_id doc selected name color tfs :
  is_json doc = true →
  Tree.getAtPath doc (default [] (node_path selected)) = TNode (NObj tfs) →
  fields_get "name" tfs = Some (TStr name) → fields_get "color" tfs = Some (TStr color) →
  saved_document doc selected name color = doc.
Proof.
  intros Hjson Hcur Hn Hc. unfold saved_document.
  rewrite Hcur. cbn [base_of]. rewrite edited_id, <- Hcur by done.
  apply RoundTrip.setAtPath_getAtPath; [done | by rewrite Hcur |].
  by eapply TreeFrame.getAtPath_node_no_string.
Qed.

Lemma saved_document_twice doc selected name color rows' :
  saved_document (saved_document doc selected name color)
    {| node_path := node_path selected; node_text := rows' |} name color =
  saved_document doc selected name color.
Proof.
  unfold saved_document at 1. cbn [node_path node_text].
  rewrite saved_document_at_path. cbn [base_of]. rewrite edited_edited.
  unfold saved_document. apply TreeLaws.setAtPath_setAtPath.
Qed.




(** * The claims on [getAtPath] and [setAtPath] *)



Lemma repr_heap_Bob : repr heap_Bob (VRef 2) doc_Bob.
Proof. repeat (econstructor; try reflexivity). Qed.






(** C8, as the code has it.  For a root that holds a JSON value and a
    path that resolves to a value by indexing arrays and objects only,
    no segment indexing into a string, writing the resolved value back
    at the same path leaves the content of the document as it was: the
    result is deep-equal to the root.  No container of the input has
    changed, and for a path that is not empty the root and the
    containers on the path are new copies. *)
Theorem setAtPath_getAtPath_roundtrip (h : heap) (root : val) (troot : tree)
    (path : list segment) (v : val) :
  repr h root troot → is_json troot = true →
  getAtPath h root path = Ok v → v ≠ VUndef →
  (∀ pre seg post s, path = pre ++ seg :: post → getAtPath h root pre ≠ Ok (VStr s)) →
  ∃ r h', setAtPath h root path v = Ok (r, h') ∧
          deep_equal h root h' r ∧
          unchanged h h' ∧
          match path with
          | [] => r = root
          | seg :: rest => copied_along h root h' r seg rest v
          end.
Proof.
  intros Hr Hjson Hget Hv Hstr.
  destruct (getAtPath_repr h root troot path Hr) as (v' & Hv' & Hrv).
  rewrite Hget in Hv'. injection Hv' as <-.
  destruct (setAtPath_repr h root path v troot _ Hr Hrv) as (r & h' & Hset & Hr' & Hu).
  rewrite RoundTrip.setAtPath_getAtPath in Hr'; [|done| |].
  - exists r, h'. split_and!; [done | by exists troot | done |].
    destruct path as [|seg rest].
    + cbn in Hset, Hget. congruence.
    + destruct (setAtPath_copied_along h root troot seg rest v Hr Hjson)
        as (r2 & h2 & Hset2 & _ & Hcopied).
      rewrite Hset in Hset2. by injection Hset2 as <- <-.
  - intros E. rewrite E in Hrv. by inversion Hrv.
  - intros pre seg post s Hpath E.
    destruct (getAtPath_repr h root troot pre Hr) as (w & Hw & Hrw).
    rewrite E in Hrw. inversion Hrw; subst. by eapply Hstr.
Qed.

Lemma setAtPath_getAtPath_roundtrip_witness :
  ∃ r h', setAtPath heap_Bob (VRef 2) [SStr "user"; SStr "tags"; SNum 0] (VStr "x") = Ok (r, h') ∧
          deep_equal heap_Bob (VRef 2) h' r ∧
          unchanged heap_Bob h' ∧
          copied_along heap_Bob (VRef 2) h' r (SStr "user") [SStr "tags"; SNum 0] (VStr "x").
Proof.
  apply (setAtPath_getAtPath_roundtrip heap_Bob (VRef 2) doc_Bob
           [SStr "user"; SStr "tags"; SNum 0] (VStr "x")).
  - exact repr_heap_Bob.
  - reflexivity.
  - reflexivity.
  - discriminate.
  - intros pre seg post s Hpath.
    destruct pre as [|s0 pre]; [by vm_compute|]. injection Hpath as <- Hpath.
    destruct pre as [|s1 pre]; [by vm_compute|]. injection Hpath as <- Hpath.
    destruct pre as [|s2 pre]; [by vm_compute|]. injection Hpath as <- Hpath.
    by destruct pre.
Defined.

(** C8, as the claim states it, fails where the path runs through a
    string.  In the document [{"a":"hi"}] the path [["a", 0]] resolves
    to ["h"]; writing ["h"] back spreads the string into an object, and
    the result [{"a":{"0":"h","1":"i"}}] is not deep-equal to the
    document. *)
Lemma setAtPath_getAtPath_through_string :
  (∃ t, repr heap_hi (VRef 0) t ∧ is_json t = true) ∧
  getAtPath heap_hi (VRef 0) [SStr "a"; SNum 0] = Ok (VStr "h") ∧
  ∃ r h', setAtPath heap_hi (VRef 0) [SStr "a"; SNum 0] (VStr "h") = Ok (r, h') ∧
          ¬ deep_equal heap_hi (VRef 0) h' r.
Proof.
  split_and!.
  - exists (TNode (NObj [("a", TStr "hi")])). split; [|done].
    repeat (econstructor; try reflexivity).
  - reflexivity.
  - eexists _, _. split; [reflexivity|].
    intros (t & H1 & H2).
    inversion H1 as [| | | | |l1 c1 tc1 Hl1 Hc1]; subst.
    inversion H2 as [| | | | |l2 c2 tc2 Hl2 Hc2]; subst.
    cbn in Hl1, Hl2. injection Hl1 as <-. injection Hl2 as <-.
    inversion Hc1 as [|fs1 gs1 Hf1]; subst.
    inversion Hc2 as [|fs2 gs2 Hf2]; subst.
    inversion Hf1 as [|x1 y1 ? ? Hx1 _]; subst.
    inversion Hf2 as [|x2 y2 ? ? Hx2 _]; subst.
    inversion Hx1 as [k1 a1 b1 Ha1]; subst.
    inversion Hx2 as [k2 a2 b2 Ha2]; subst.
    inversion Ha1; subst. inversion Ha2.
Qed.


(** * The claims on [save] *)

(** C1. The scenario of the specification.  The document is
    [{"user":{"name":"Bob","tags":["x"]}}], the selected node has the
    path [["user"]] and the rows [name] (primitive, ["Bob"]) and [tags]
    (array), the inputs are ["Alice"] and ["red"].  [save] returns and
    the store holds the text of
    [{"user":{"name":"Alice","tags":["x"],"color":"red"}}]: the name
    edited, the color appended.  The row [name] of the selected node
    carries ["Alice"], the row [tags] is as it was.  The array under
    [tags] is one and the same reference in the parsed document and in
    the written one. *)
Theorem save_scenario (JSON_parse : string → option tree)
    (JSON_print : tree → string) (persists : string → bool) (st : Store) :
  JSON_parse (contents st) = Some doc_Bob →
  persists (JSON_print doc_Alice) = true →
  let run := save JSON_parse JSON_print persists (Some (node_user [row_name "Bob"; row_tags])) "Alice" "red" st in
  run.1 = Ok () ∧
  contents run.2 = JSON_print doc_Alice ∧
  selectedNode run.2 = Some (node_user [row_name "Alice"; row_tags]) ∧
  ∃ json updatedJson tags,
    repr (js_heap run.2) json doc_Bob ∧
    repr (js_heap run.2) updatedJson doc_Alice ∧
    getAtPath (js_heap run.2) json [SStr "user"; SStr "tags"] = Ok tags ∧
    getAtPath (js_heap run.2) updatedJson [SStr "user"; SStr "tags"] = Ok tags ∧
    isArray (js_heap run.2) tags = true.
Proof.
  intros Hparse Hpersists. cbn zeta.
  destruct (save_merges_object JSON_parse JSON_print persists st (node_user [row_name "Bob"; row_tags]) "Alice" "red"
              doc_Bob [("name", TStr "Bob"); ("tags", TNode (NArr [TStr "x"] []))]
              Hparse eq_refl eq_refl)
    as (h' & json & updatedJson & rf & Hrun & Hname & _ & Hrj & Hru & Hshare).
  cbn zeta in Hrun.
  change (Tree.setAtPath doc_Bob _ _) with doc_Alice in *.
  rewrite Hrun, Hpersists. cbn [fst snd contents selectedNode js_heap].
  split_and!; [done | done | |].
  - assert (update_row rf (row_name "Bob") = row_name "Alice") as Hrow1.
    { unfold update_row.
      change (truthy_key (row_key (row_name "Bob"))) with (Some "name").
      change (is_primitive_row (row_name "Bob")) with true. cbv beta iota.
      assert (fields_has "name" rf = true) as -> by (apply fields_has_true; eauto).
      by rewrite Hname. }
    assert (update_row rf row_tags = row_tags) as Hrow2.
    { unfold update_row.
      change (truthy_key (row_key row_tags)) with (Some "tags").
      change (is_primitive_row row_tags) with false. cbv beta iota.
      by destruct (fields_has "tags" rf). }
    unfold updatedText_of. cbn -[update_row row_name row_tags].
    by rewrite Hrow1, Hrow2.
  - destruct (getAtPath_repr h' json doc_Bob [SStr "user"; SStr "tags"] Hrj)
      as (tags & Htags & Hrtags).
    exists json, updatedJson, tags. split_and!; try done.
    + rewrite <- Htags. by apply (Hshare "tags").
    + by rewrite (repr_isArray _ _ _ Hrtags).
Qed.

Lemma save_scenario_witness :
  let run := save (λ _, Some doc_Bob) (λ _, "out") (λ _, true)
               (Some (node_user [row_name "Bob"; row_tags])) "Alice" "red" store_Bob in
  run.1 = Ok () ∧
  contents run.2 = "out" ∧
  selectedNode run.2 = Some (node_user [row_name "Alice"; row_tags]) ∧
  ∃ json updatedJson tags,
    repr (js_heap run.2) json doc_Bob ∧
    repr (js_heap run.2) updatedJson doc_Alice ∧
    getAtPath (js_heap run.2) json [SStr "user"; SStr "tags"] = Ok tags ∧
    getAtPath (js_heap run.2) updatedJson [SStr "user"; SStr "tags"] = Ok tags ∧
    isArray (js_heap run.2) tags = true.
Proof.
  apply (save_scenario (λ _, Some doc_Bob) (λ _, "out") (λ _, true) store_Bob).
  - reflexivity.
  - reflexivity.
Defined.


(** C4, as the code has it.  [updatedText] has a row for each row of the
    node, in the same order, with the same key and type.  A row of type
    object or array, a row without a key and a row whose key the
    replacement does not have are passed through as they are.  A
    primitive row whose key the replacement has takes the value the
    replacement holds for that key: the edited value for a key of the
    edit set, and for any other key the value found in the base object
    of the merge.  The rows given are values of the model and stay as
    they are. *)
Theorem updatedText_rule (h : heap) (currentAtPath : val) (rows : list NodeRow)
    (name color : string) :
  let replacement := replacement_of h currentAtPath rows (updates_of name color) in
  let out := updatedText_of replacement rows in
  length out = length rows ∧
  ∀ i row, rows !! i = Some row →
    ∃ row', out !! i = Some row' ∧
      row_key row' = row_key row ∧ row_type row' = row_type row ∧
      (is_primitive_row row = false → row' = row) ∧
      (truthy_key (row_key row) = None → row' = row) ∧
      (∀ k, truthy_key (row_key row) = Some k →
            fields_get k replacement = None → row' = row) ∧
      (∀ k v, truthy_key (row_key row) = Some k → is_primitive_row row = true →
              fields_get k replacement = Some v → row_value row' = v) ∧
      (truthy_key (row_key row) = Some "name" → is_primitive_row row = true →
       row_value row' = VStr name) ∧
      (truthy_key (row_key row) = Some "color" → is_primitive_row row = true →
       row_value row' = VStr color).
Proof.
  cbn zeta.
  pose proof (replacement_of_name h currentAtPath rows name color) as Hname.
  pose proof (replacement_of_color h currentAtPath rows name color) as Hcolor.
  set (replacement := replacement_of h currentAtPath rows (updates_of name color)) in *.
  split; [apply length_map|].
  intros i row Hrow. exists (update_row replacement row).
  split; [unfold updatedText_of; by rewrite list_lookup_fmap, Hrow|].
  assert (∀ k v, truthy_key (row_key row) = Some k → is_primitive_row row = true →
                 fields_get k replacement = Some v →
                 row_value (update_row replacement row) = v) as Hval.
  { intros k v Hk Hp Hv. unfold update_row. rewrite Hk.
    assert (fields_has k replacement = true) as -> by (apply fields_has_true; eauto).
    by rewrite Hp, Hv. }
  unfold update_row. split_and!.
  - destruct (truthy_key _); [|done]. by repeat case_match.
  - destruct (truthy_key _); [|done]. by repeat case_match.
  - intros Hp. destruct (truthy_key _); [|done]. rewrite Hp. by case_match.
  - by intros ->.
  - intros k -> Hk. by rewrite (proj2 (fields_has_false _ _) Hk).
  - exact Hval.
  - intros Hk Hp. by eapply Hval.
  - intros Hk Hp. by eapply Hval.
Qed.

(** C4, as the claim states it, fails on a row whose key is not in the
    edit set.  The object at the path is [{"age":5}] and the node still
    shows [age] as [7]: the edit set holds [name] and [color] only, yet
    the row [age] comes out with the value [5] of the document. *)
Lemma updatedText_changes_unedited_row :
  let h : heap := [NObj [("age", VNum 5)]] in
  let row := {| row_key := Some "age"; row_value := VNum 7; row_type := "number" |} in
  let replacement := replacement_of h (VRef 0) [row] (updates_of "Alice" "red") in
  fields_get "age" (updates_of "Alice" "red") = None ∧
  is_primitive_row row = true ∧
  updatedText_of replacement [row]
    = [{| row_key := Some "age"; row_value := VNum 5; row_type := "number" |}] ∧
  updatedText_of replacement [row] ≠ [row].
Proof. by vm_compute. Qed.

(** C5. When the text of the document is not valid JSON, [save] stops
    at the parse: the only calls it has made are the read of the text
    and the report of the error.  The text in the store, the selected
    node and its rows, the modals and the heap are what they were. *)
Theorem save_parse_error (JSON_parse : string → option tree)
    (JSON_print : tree → string) (persists : string → bool) (st : Store) (selected : NodeData) (name color : string) :
  JSON_parse (contents st) = None →
  let run := save JSON_parse JSON_print persists (Some selected) name color st in
  run.1 = Ok () ∧
  contents run.2 = contents st ∧
  selectedNode run.2 = selectedNode st ∧
  visible run.2 = visible st ∧
  js_heap run.2 = js_heap st ∧
  trace run.2 = trace st ++ [GetContents; ConsoleError SyntaxError].
Proof.
  intros Hparse. cbn zeta. run_save.
  rewrite Hparse. cbn. rewrite <- app_assoc. done.
Qed.

Lemma save_parse_error_witness :
  let run := save (λ _, None) (λ _, "out") (λ _, true)
               (Some (node_user [row_name "Bob"; row_tags])) "Alice" "red" store_Bob in
  run.1 = Ok () ∧
  contents run.2 = contents store_Bob ∧
  selectedNode run.2 = selectedNode store_Bob ∧
  visible run.2 = visible store_Bob ∧
  js_heap run.2 = js_heap store_Bob ∧
  trace run.2 = trace store_Bob ++ [GetContents; ConsoleError SyntaxError].
Proof.
  apply (save_parse_error (λ _, None) (λ _, "out") (λ _, true) store_Bob).
  reflexivity.
Defined.

(** C9. Whenever [save] calls [setContents], it has called
    [setSelectedNode] just before, with the node whose rows are the
    updated ones: as many rows, each with its key and type, the
    primitive rows keyed [name] and [color] carrying the two inputs,
    the rows of type object or array and the rows without a key as they
    were.  When the store then refuses the text, [save] reports the
    error and does nothing else: the selected node stays the updated
    one, while the text of the document and the modals are what they
    were. *)
Theorem save_updates_node_before_persisting (JSON_parse : string → option tree)
    (JSON_print : tree → string) (persists : string → bool) (st : Store) (selected : NodeData)
    (name color : string) :
  let rows := default [] (node_text selected) in
  let run := save JSON_parse JSON_print persists (Some selected) name color st in
  ∃ calls, trace run.2 = trace st ++ calls ∧
    ∀ text, In (SetContents text) calls →
      ∃ rows' after,
        let node' := {| node_path := node_path selected; node_text := Some rows' |} in
        calls = [GetContents; SetSelectedNode node'; SetContents text] ++ after ∧
        length rows' = length rows ∧
        (∀ i row, rows !! i = Some row →
           ∃ row', rows' !! i = Some row' ∧
             row_key row' = row_key row ∧ row_type row' = row_type row ∧
             (is_primitive_row row = true → truthy_key (row_key row) = Some "name" →
              row_value row' = VStr name) ∧
             (is_primitive_row row = true → truthy_key (row_key row) = Some "color" →
              row_value row' = VStr color) ∧
             (is_primitive_row row = false ∨ truthy_key (row_key row) = None →
              row' = row)) ∧
        (persists text = false →
           run.1 = Ok () ∧
           after = [ConsoleError PersistError] ∧
           selectedNode run.2 = Some node' ∧
           contents run.2 = contents st ∧
           visible run.2 = visible st).
Proof.
  cbn zeta. run_save.
  destruct (JSON_parse (contents st)) as [doc|]; msimpl.
  2:{ eexists. split; [by rewrite <- app_assoc|]. intros text [H|[H|[]]]; discriminate. }
  destruct (alloc_tree (js_heap st) doc) as [json h1]. msimpl.
  rewrite getAtPath_index_all. msimpl. rewrite !own_props_new.
  match goal with |- context [updatedText_of ?rf ?rows] =>
    destruct (updatedText_of_edits rf rows name color) as [Hlen Hrows];
      [apply replacement_of_name | apply replacement_of_color |];
      set (rows' := updatedText_of rf rows) in *
  end.
  match goal with |- context [setAtPath ?h ?r ?p ?v] =>
    destruct (setAtPath_total h r p v) as (updatedJson & h' & ->) end.
  msimpl.
  destruct (content h' updatedJson) as [t|]; msimpl.
  2:{ eexists. split; [by rewrite <- !(app_assoc (trace st))|].
      intros text [H|[H|[H|[]]]]; discriminate. }
  destruct (persists (JSON_print t)) eqn:Hp; msimpl.
  - eexists. split; [by rewrite <- !(app_assoc (trace st))|].
    intros text [H|[H|[H|[H|[H|[]]]]]]; try discriminate.
    injection H as <-. exists rows'. eexists. split_and!; [done | done | done |].
    intros Hp'. congruence.
  - eexists. split; [by rewrite <- !(app_assoc (trace st))|].
    intros text [H|[H|[H|[H|[]]]]]; try discriminate.
    injection H as <-. exists rows'. eexists. split_and!; done.
Qed.



(** * Further properties: the label of a path *)

(** X1. The label is ["$"] for a missing path and for the empty one,
    and for no other; the label of a path with one more segment is the
    label of the path followed by that segment between brackets. *)
Theorem jsonPathToString_child (path : option (list segment)) (p : list segment)
    (seg : segment) :
  (jsonPathToString path = "$" ↔ default [] path = []) ∧
  jsonPathToString (Some (p ++ [seg])) =
    jsonPathToString (Some p) +:+ "[" +:+ segment_label seg +:+ "]".
Proof.
  split.
  - by destruct path as [[|s q]|].
  - rewrite !jsonPathToString_bracketed. cbn [default from_option id].
    rewrite bracketed_app, string_app_assoc. done.
Qed.

(** X2. Two paths whose string segments hold no quotation mark have the
    same label only when they are the same path, a missing path counting
    as the empty one: the label tells numbers from strings and marks
    where each segment ends. *)
Theorem jsonPathToString_injective (a b : option (list segment)) :
  quote_free (default [] a) = true → quote_free (default [] b) = true →
  jsonPathToString a = jsonPathToString b → default [] a = default [] b.
Proof.
  intros Ha Hb. rewrite !jsonPathToString_bracketed. intros E.
  apply (inj (String.append "$")) in E.
  by apply bracketed_inj.
Qed.

Lemma jsonPathToString_injective_witness :
  quote_free [SStr "user"; SNum 0] = true ∧
  quote_free [SStr "user"; SStr "0"] = true ∧
  jsonPathToString (Some [SStr "user"; SNum 0]) ≠
    jsonPathToString (Some [SStr "user"; SStr "0"]).
Proof.
  split_and!; [reflexivity | reflexivity |].
  intros E.
  apply (jsonPathToString_injective (Some [SStr "user"; SNum 0])
           (Some [SStr "user"; SStr "0"])) in E; [discriminate | reflexivity | reflexivity].
Defined.

(** X3. String segments are not escaped: a key made of [a], a quotation
    mark, ["]["], a quotation mark and [b] is labelled as the two keys
    [a] and [b] are, wherever it stands in the path. *)
Theorem jsonPathToString_unescaped (a b : string) (p q : list segment) :
  jsonPathToString (Some (p ++ SStr (a +:+ dquote +:+ "][" +:+ dquote +:+ b) :: q)) =
  jsonPathToString (Some (p ++ SStr a :: SStr b :: q)).
Proof.
  rewrite !jsonPathToString_bracketed. cbn [default from_option id].
  rewrite !bracketed_app. do 2 f_equal.
  cbn [bracketed foldr segment_label]. rewrite !string_app_assoc. done.
Qed.



(** * Further properties: [getAtPath] and [setAtPath] *)

(** X4. On a path of plain keys [setAtPath] never throws, whatever
    the heap, the root and the value: a root that is [null],
    [undefined] or a primitive is spread like any other.  It changes no
    container of the heap it is given.  For the empty path it returns the value itself
    and allocates nothing; otherwise it returns a container that did
    not exist before, an array when the root is an array and an
    ordinary object when it is anything else. *)
Theorem setAtPath_never_throws (h : heap) (root : val) (path : list segment) (value : val) :
  plain_path path = true →
  ∃ r h', setAtPath h root path value = Ok (r, h') ∧
          unchanged h h' ∧
          match path with
          | [] => r = value ∧ h' = h
          | _ => ∃ l c, r = VRef l ∧ length h ≤ l ∧ h' !! l = Some c ∧
                        node_is_array c = isArray h root
          end.
Proof.
  intros _.
  destruct (setAtPath_spec h root path value) as (r & h' & Hset & Hu & _ & Hr).
  exists r, h'. split_and!; try done.
  destruct path as [|seg rest]; [done|].
  destruct Hr as (-> & c & Hc & Hkind). by exists (length h), c.
Qed.

Lemma setAtPath_never_throws_witness :
  ∃ r h', setAtPath heap_hi (VStr "hi") [SNum 0; SStr "x"] (VNum 7) = Ok (r, h') ∧
          unchanged heap_hi h' ∧
          ∃ l c, r = VRef l ∧ length heap_hi ≤ l ∧ h' !! l = Some c ∧
                 node_is_array c = isArray heap_hi (VStr "hi").
Proof.
  apply (setAtPath_never_throws heap_hi (VStr "hi") [SNum 0; SStr "x"] (VNum 7)).
  reflexivity.
Defined.

(** X5. Reading the path that [setAtPath] has just written gives the
    value written, the very same reference, for every heap, root and
    value and every path of plain keys. *)
Theorem getAtPath_after_setAtPath (h : heap) (root : val) (path : list segment)
    (value : val) :
  plain_path path = true →
  ∃ r h', setAtPath h root path value = Ok (r, h') ∧ getAtPath h' r path = Ok value.
Proof.
  intros _.
  destruct (setAtPath_spec h root path value) as (r & h' & Hset & _ & Hget & _).
  by exists r, h'.
Qed.

Lemma getAtPath_after_setAtPath_witness :
  ∃ r h', setAtPath heap_Bob (VRef 2) [SStr "user"; SStr "tags"; SNum 3] (VRef 0)
            = Ok (r, h') ∧
          getAtPath h' r [SStr "user"; SStr "tags"; SNum 3] = Ok (VRef 0).
Proof.
  apply (getAtPath_after_setAtPath heap_Bob (VRef 2)
           [SStr "user"; SStr "tags"; SNum 3] (VRef 0)).
  reflexivity.
Defined.

(** X6. Reading, in the result of [setAtPath], a path that leaves the
    written path at some segment for another key gives what the same
    path gives in the original root, the very same value or reference,
    provided the root holds a JSON value and both paths have plain
    keys. *)
Theorem getAtPath_off_the_path (h : heap) (root : val) (troot : tree)
    (pre : list segment) (seg seg' : segment) (rest rest' : list segment) (value : val) :
  repr h root troot → is_json troot = true →
  plain_path (pre ++ seg :: rest) = true → plain_path (pre ++ seg' :: rest') = true →
  to_key seg ≠ to_key seg' →
  ∃ r h', setAtPath h root (pre ++ seg :: rest) value = Ok (r, h') ∧
          getAtPath h' r (pre ++ seg' :: rest') = getAtPath h root (pre ++ seg' :: rest').
Proof.
  intros Hr Hjson _ _ Hne.
  destruct (pre ++ seg :: rest) as [|s0 rest0] eqn:E; [by destruct pre|].
  destruct (setAtPath_copied_along h root troot s0 rest0 value Hr Hjson)
    as (r & h' & Hset & Hu & Hcopied).
  exists r, h'. split; [done|]. rewrite !getAtPath_as_loop.
  eapply copied_along_off_path; eauto.
Qed.

Lemma getAtPath_off_the_path_witness :
  ∃ r h', setAtPath heap_Bob (VRef 2) ([SStr "user"] ++ SStr "name" :: []) (VStr "Alice")
            = Ok (r, h') ∧
          getAtPath h' r ([SStr "user"] ++ SStr "tags" :: [SNum 0])
            = getAtPath heap_Bob (VRef 2) ([SStr "user"] ++ SStr "tags" :: [SNum 0]).
Proof.
  apply (getAtPath_off_the_path heap_Bob (VRef 2) doc_Bob
           [SStr "user"] (SStr "name") (SStr "tags") [] [SNum 0] (VStr "Alice")).
  - exact repr_heap_Bob.
  - reflexivity.
  - reflexivity.
  - reflexivity.
  - discriminate.
Defined.

(** X7. The last write wins: writing [v] and then [w] at the same
    path of plain keys gives a result deep-equal to the result of
    writing [w] alone. *)
Theorem setAtPath_last_write_wins (h : heap) (root : val) (troot : tree)
    (path : list segment) (v w : val) (tv tw : tree) :
  repr h root troot → repr h v tv → repr h w tw →
  plain_path path = true →
  ∃ r1 h1 r2 h2 r3 h3,
    setAtPath h root path v = Ok (r1, h1) ∧
    setAtPath h1 r1 path w = Ok (r2, h2) ∧
    setAtPath h root path w = Ok (r3, h3) ∧
    deep_equal h2 r2 h3 r3.
Proof.
  intros Hr Hv Hw _.
  destruct (setAtPath_repr h root path v troot tv Hr Hv) as (r1 & h1 & Hset1 & Hr1 & Hu1).
  assert (repr h1 w tw) as Hw1 by (by eapply repr_unchanged).
  destruct (setAtPath_repr h1 r1 path w _ tw Hr1 Hw1) as (r2 & h2 & Hset2 & Hr2 & _).
  destruct (setAtPath_repr h root path w troot tw Hr Hw) as (r3 & h3 & Hset3 & Hr3 & _).
  exists r1, h1, r2, h2, r3, h3. split_and!; try done.
  exists (Tree.setAtPath troot path tw). split; [|done].
  by rewrite TreeLaws.setAtPath_setAtPath in Hr2.
Qed.

Lemma setAtPath_last_write_wins_witness :
  ∃ r1 h1 r2 h2 r3 h3,
    setAtPath heap_Bob (VRef 2) [SStr "user"; SStr "name"] (VStr "Al") = Ok (r1, h1) ∧
    setAtPath h1 r1 [SStr "user"; SStr "name"] (VStr "Alice") = Ok (r2, h2) ∧
    setAtPath heap_Bob (VRef 2) [SStr "user"; SStr "name"] (VStr "Alice") = Ok (r3, h3) ∧
    deep_equal h2 r2 h3 r3.
Proof.
  apply (setAtPath_last_write_wins heap_Bob (VRef 2) doc_Bob
           [SStr "user"; SStr "name"] (VStr "Al") (VStr "Alice") (TStr "Al") (TStr "Alice")).
  - exact repr_heap_Bob.
  - constructor.
  - constructor.
  - reflexivity.
Defined.

(** X8. On a path of plain keys, a root that is [null] or [undefined]
    comes back as an ordinary object with one key, the first segment,
    even when that segment is a number; under the key is the value, or
    the chain of containers made for the segments that follow. *)
Theorem setAtPath_nullish_root (h : heap) (root : val) (seg : segment)
    (rest : list segment) (value : val) (tv : tree) :
  nullish root = true → repr h value tv →
  plain_path (seg :: rest) = true →
  ∃ r h', setAtPath h root (seg :: rest) value = Ok (r, h') ∧
          isArray h' r = false ∧
          repr h' r (TNode (NObj [(to_key seg,
                                   match rest with
                                   | [] => tv
                                   | nextSeg :: rest' => chain nextSeg rest' tv
                                   end)])).
Proof.
  intros Hnull Hv _.
  assert (∃ troot, repr h root troot ∧ Tree.nullish troot = true) as (troot & Hr & Ht).
  { destruct root; try done; eexists; split; try constructor; done. }
  destruct (setAtPath_repr h root (seg :: rest) value troot tv Hr Hv)
    as (r & h' & Hset & Hr' & _).
  rewrite TreeLaws.setAtPath_nullish in Hr' by done.
  exists r, h'. split_and!; [done | | done].
  by rewrite (repr_isArray _ _ _ Hr').
Qed.

Lemma setAtPath_nullish_root_witness :
  ∃ r h', setAtPath [] VNull (SNum 0 :: [SStr "a"]) (VNum 7) = Ok (r, h') ∧
          isArray h' r = false ∧
          repr h' r (TNode (NObj [(to_key (SNum 0), chain (SStr "a") [] (TNum 7))])).
Proof.
  apply (setAtPath_nullish_root [] VNull (SNum 0) [SStr "a"] (VNum 7) (TNum 7)).
  - reflexivity.
  - constructor.
  - reflexivity.
Defined.

(** X9. Resolving a path in two steps is resolving it in one:
    [getAtPath] on [p ++ q] is [getAtPath] on [q] from what [p]
    resolves to.  Once a prefix resolves to [null] or [undefined], every
    longer path resolves to [undefined]. *)
Theorem getAtPath_concat (h : heap) (root : val) (p q : list segment) :
  getAtPath h root (p ++ q) = (v ← getAtPath h root p; getAtPath h v q) ∧
  (∀ v, getAtPath h root p = Ok v → nullish v = true → q ≠ [] →
        getAtPath h root (p ++ q) = Ok VUndef).
Proof.
  assert (getAtPath h root (p ++ q) = (v ← getAtPath h root p; getAtPath h v q)) as E.
  { rewrite !getAtPath_as_loop, getAtPath_loop_app.
    destruct (getAtPath_loop h root p); cbn; [|done]. by rewrite getAtPath_as_loop. }
  split; [done|].
  intros v Hv Hnull Hq. rewrite E, Hv. cbn.
  destruct q as [|seg q]; [done|]. cbn. by rewrite Hnull.
Qed.



(** * Further properties: [save] and the form *)

(** X10. [save] never rejects: whatever happens inside is caught and
    reported.  For a node whose path has plain keys and whose rows hold
    primitives its calls take one of four shapes: none at all without a selected node; the read and the
    report when the text does not parse; the read, the node update, the
    write and the report when the store refuses the text; the read, the
    node update, the write and the two modal switches when all goes
    well.  The modals switch only after the write went through, and
    only then does the text of the document change. *)
Theorem save_never_rejects (JSON_parse : string → option tree)
    (JSON_print : tree → string) (persists : string → bool) (st : Store)
    (node : option NodeData) (name color : string) :
  plain_path (default [] (node ≫= node_path)) = true →
  rows_primitive (default [] (node ≫= node_text)) = true →
  let run := save JSON_parse JSON_print persists node name color st in
  run.1 = Ok () ∧
  ∃ calls, trace run.2 = trace st ++ calls ∧
    (calls = [] ∧ node = None ∧ run.2 = st
     ∨ calls = [GetContents; ConsoleError SyntaxError] ∧
       JSON_parse (contents st) = None ∧
       contents run.2 = contents st ∧ visible run.2 = visible st
     ∨ (∃ node' text,
          calls = [GetContents; SetSelectedNode node'; SetContents text;
                   ConsoleError PersistError] ∧
          persists text = false ∧
          contents run.2 = contents st ∧ visible run.2 = visible st)
     ∨ (∃ node' text,
          calls = [GetContents; SetSelectedNode node'; SetContents text;
                   SetVisible "NodeEditModal" false; SetVisible "NodeModal" true] ∧
          persists text = true ∧
          contents run.2 = text ∧
          fields_get "NodeEditModal" (visible run.2) = Some false ∧
          fields_get "NodeModal" (visible run.2) = Some true)).
Proof.
  intros _ Hrows. cbn zeta. destruct node as [selected|].
  2:{ split; [done|]. exists []. split; [by rewrite app_nil_r|]. by left. }
  destruct (JSON_parse (contents st)) as [doc|] eqn:Hparse.
  - destruct (save_run JSON_parse JSON_print persists st selected name color doc Hparse)
      as (h' & rf & Hrun & _); [by right|].
    cbn zeta in Hrun. rewrite Hrun. split; [done|].
    destruct (persists (JSON_print _)) eqn:Hp; cbn [snd trace contents visible].
    + eexists. split; [done|]. do 3 right. eexists _, _. split_and!; try done.
      * rewrite fields_get_put_ne by done. apply fields_get_put_eq.
      * apply fields_get_put_eq.
    + eexists. split; [done|]. do 2 right. left. by eexists _, _.
  - run_save. rewrite Hparse. cbn. split; [done|].
    eexists. split; [by rewrite <- app_assoc|]. right. by left.
Qed.

Lemma save_never_rejects_witness :
  let run := save (λ _, Some doc_Bob) (λ _, "out") (λ _, false)
               (Some (node_user [row_name "Bob"; row_tags])) "Alice" "red" store_Bob in
  run.1 = Ok () ∧
  ∃ calls, trace run.2 = trace store_Bob ++ calls ∧
    (calls = [] ∧ Some (node_user [row_name "Bob"; row_tags]) = None ∧ run.2 = store_Bob
     ∨ calls = [GetContents; ConsoleError SyntaxError] ∧
       Some doc_Bob = None ∧
       contents run.2 = contents store_Bob ∧ visible run.2 = visible store_Bob
     ∨ (∃ node' text,
          calls = [GetContents; SetSelectedNode node'; SetContents text;
                   ConsoleError PersistError] ∧
          false = false ∧
          contents run.2 = contents store_Bob ∧ visible run.2 = visible store_Bob)
     ∨ (∃ node' text,
          calls = [GetContents; SetSelectedNode node'; SetContents text;
                   SetVisible "NodeEditModal" false; SetVisible "NodeModal" true] ∧
          false = true ∧
          contents run.2 = text ∧
          fields_get "NodeEditModal" (visible run.2) = Some false ∧
          fields_get "NodeModal" (visible run.2) = Some true)).
Proof.
  apply (save_never_rejects (λ _, Some doc_Bob) (λ _, "out") (λ _, false) store_Bob
           (Some (node_user [row_name "Bob"; row_tags])) "Alice" "red").
  - reflexivity.
  - reflexivity.
Defined.

(** X11. When the path of the node resolves to an object, the document
    [save] writes holds at that path the object with the two edits
    merged in: [name] and [color] carry the inputs, every other key of
    the object keeps its value, the keys keep their order, and only the
    edited keys the object lacked are added, after the others. *)
Theorem save_merges_into_object (JSON_parse : string → option tree)
    (JSON_print : tree → string) (persists : string → bool) (st : Store)
    (selected : NodeData) (name color : string) (doc : tree) (tfs : list (string * tree)) :
  let path := default [] (node_path selected) in
  let newdoc := saved_document doc selected name color in
  JSON_parse (contents st) = Some doc →
  Tree.getAtPath doc path = TNode (NObj tfs) →
  persists (JSON_print newdoc) = true →
  let run := save JSON_parse JSON_print persists (Some selected) name color st in
  contents run.2 = JSON_print newdoc ∧
  ∃ tfs', Tree.getAtPath newdoc path = TNode (NObj tfs') ∧
    fields_get "name" tfs' = Some (TStr name) ∧
    fields_get "color" tfs' = Some (TStr color) ∧
    (∀ k, k ≠ "name" → k ≠ "color" → fields_get k tfs' = fields_get k tfs) ∧
    keys tfs' = keys tfs ++ (if fields_has "name" tfs then [] else ["name"])
                         ++ (if fields_has "color" tfs then [] else ["color"]).
Proof.
  intros path newdoc Hparse Hcur Hp. cbn zeta.
  destruct (save_run JSON_parse JSON_print persists st selected name color doc Hparse)
    as (h' & rf & Hrun & _).
  { left. fold path. by rewrite Hcur. }
  cbn zeta in Hrun. fold newdoc in Hrun. rewrite Hrun, Hp. split; [done|].
  eexists. split; [apply saved_document_at_path|].
  fold path. rewrite Hcur. cbn [base_of].
  split_and!; [apply edited_name | apply edited_color | apply edited_other | apply edited_keys].
Qed.

Lemma save_merges_into_object_witness :
  let run := save (λ _, Some doc_Bob) (λ _, "out") (λ _, true)
               (Some (node_user [row_name "Bob"; row_tags])) "Alice" "red" store_Bob in
  let tfs := [("name", TStr "Bob"); ("tags", TNode (NArr [TStr "x"] []))] in
  contents run.2 = "out" ∧
  ∃ tfs', Tree.getAtPath
            (saved_document doc_Bob (node_user [row_name "Bob"; row_tags]) "Alice" "red")
            [SStr "user"] = TNode (NObj tfs') ∧
    fields_get "name" tfs' = Some (TStr "Alice") ∧
    fields_get "color" tfs' = Some (TStr "red") ∧
    (∀ k, k ≠ "name" → k ≠ "color" → fields_get k tfs' = fields_get k tfs) ∧
    keys tfs' = keys tfs ++ (if fields_has "name" tfs then [] else ["name"])
                         ++ (if fields_has "color" tfs then [] else ["color"]).
Proof.
  apply (save_merges_into_object (λ _, Some doc_Bob) (λ _, "out") (λ _, true) store_Bob
           (node_user [row_name "Bob"; row_tags]) "Alice" "red" doc_Bob).
  - reflexivity.
  - reflexivity.
  - reflexivity.
Defined.

(** X12. When the path of the node, a path of plain keys, resolves to
    anything but an object, an array, a primitive, [null] or nothing at
    all, and the rows hold primitives under plain keys, the document
    [save] writes holds at that path an object built from the rows
    alone: the two inputs under [name] and [color], and under any other
    key the value of the last primitive row with that key.  What the
    document held at the path is gone. *)
Theorem save_replaces_non_object (JSON_parse : string → option tree)
    (JSON_print : tree → string) (persists : string → bool) (st : Store)
    (selected : NodeData) (name color : string) (doc : tree) :
  let path := default [] (node_path selected) in
  let rows := default [] (node_text selected) in
  let newdoc := saved_document doc selected name color in
  JSON_parse (contents st) = Some doc →
  is_object (Tree.getAtPath doc path) = false →
  plain_path path = true →
  rows_primitive rows = true → rows_plain rows = true →
  persists (JSON_print newdoc) = true →
  let run := save JSON_parse JSON_print persists (Some selected) name color st in
  contents run.2 = JSON_print newdoc ∧
  ∃ tfs', Tree.getAtPath newdoc path = TNode (NObj tfs') ∧
    fields_get "name" tfs' = Some (TStr name) ∧
    fields_get "color" tfs' = Some (TStr color) ∧
    ∀ k, k ≠ "name" → k ≠ "color" →
         fields_get k tfs' =
           (λ row, prim_tree (row_value row)) <$> list.last (List.filter (feeds k) rows).
Proof.
  intros path rows newdoc Hparse Hcur _ Hrows _ Hp. cbn zeta.
  destruct (save_run JSON_parse JSON_print persists st selected name color doc Hparse)
    as (h' & rf & Hrun & _); [by right|].
  cbn zeta in Hrun. fold newdoc in Hrun. rewrite Hrun, Hp. split; [done|].
  eexists. split; [apply saved_document_at_path|].
  fold path rows.
  assert (base_of (Tree.getAtPath doc path) rows = existing_tree rows) as ->.
  { unfold base_of. by destruct (Tree.getAtPath doc path) as [| | | | |[]]. }
  split_and!; [apply edited_name | apply edited_color |].
  intros k Hn Hc. rewrite edited_other by done. apply fields_get_existing_tree.
Qed.

Lemma save_replaces_non_object_witness :
  let run := save (λ _, Some doc_Bob) (λ _, "out") (λ _, true)
               (Some (node_tags [row_name "Bob"])) "Alice" "red" store_Bob in
  contents run.2 = "out" ∧
  ∃ tfs', Tree.getAtPath (saved_document doc_Bob (node_tags [row_name "Bob"]) "Alice" "red")
            [SStr "user"; SStr "tags"] = TNode (NObj tfs') ∧
    fields_get "name" tfs' = Some (TStr "Alice") ∧
    fields_get "color" tfs' = Some (TStr "red") ∧
    ∀ k, k ≠ "name" → k ≠ "color" →
         fields_get k tfs' =
           (λ row, prim_tree (row_value row))
             <$> list.last (List.filter (feeds k) [row_name "Bob"]).
Proof.
  apply (save_replaces_non_object (λ _, Some doc_Bob) (λ _, "out") (λ _, true) store_Bob
           (node_tags [row_name "Bob"]) "Alice" "red" doc_Bob).
  - reflexivity.
  - reflexivity.
  - reflexivity.
  - reflexivity.
  - reflexivity.
  - reflexivity.
Defined.

(** X13. [save] leaves the rest of the document alone, for a node
    whose path resolves to an object of the document, or has plain keys
    with rows that hold primitives under plain keys: a path of plain
    keys that leaves the path of the node at some segment for another
    key resolves, in the document written, to what it resolves to in
    the document read. *)
Theorem save_keeps_the_rest (JSON_parse : string → option tree)
    (JSON_print : tree → string) (persists : string → bool) (st : Store)
    (selected : NodeData) (name color : string) (doc : tree)
    (pre : list segment) (seg seg' : segment) (rest rest' : list segment) :
  let rows := default [] (node_text selected) in
  let newdoc := saved_document doc selected name color in
  JSON_parse (contents st) = Some doc → is_json doc = true →
  node_path selected = Some (pre ++ seg :: rest) →
  node_in_model doc selected = true →
  plain_path (pre ++ seg' :: rest') = true →
  to_key seg ≠ to_key seg' →
  persists (JSON_print newdoc) = true →
  let run := save JSON_parse JSON_print persists (Some selected) name color st in
  contents run.2 = JSON_print newdoc ∧
  Tree.getAtPath newdoc (pre ++ seg' :: rest') = Tree.getAtPath doc (pre ++ seg' :: rest').
Proof.
  intros rows newdoc Hparse Hjson Hpath Hrows _ Hne Hp. cbn zeta.
  destruct (save_run JSON_parse JSON_print persists st selected name color doc Hparse)
    as (h' & rf & Hrun & _).
  { by apply node_in_model_run. }
  cbn zeta in Hrun. fold newdoc in Hrun. rewrite Hrun, Hp. split; [done|].
  unfold newdoc, saved_document. rewrite Hpath. cbn [default from_option id].
  by apply TreeFrame.getAtPath_setAtPath_off.
Qed.

Lemma save_keeps_the_rest_witness :
  let run := save (λ _, Some doc_Bob) (λ _, "out") (λ _, true)
               (Some (node_tags [])) "Alice" "red" store_Bob in
  contents run.2 = "out" ∧
  Tree.getAtPath (saved_document doc_Bob (node_tags []) "Alice" "red")
    ([SStr "user"] ++ SStr "name" :: []) =
  Tree.getAtPath doc_Bob ([SStr "user"] ++ SStr "name" :: []).
Proof.
  apply (save_keeps_the_rest (λ _, Some doc_Bob) (λ _, "out") (λ _, true) store_Bob
           (node_tags []) "Alice" "red" doc_Bob [SStr "user"] (SStr "tags") (SStr "name") [] []).
  - reflexivity.
  - reflexivity.
  - reflexivity.
  - reflexivity.
  - reflexivity.
  - discriminate.
  - reflexivity.
Defined.

(** X14. Saving what the form was opened with changes nothing in the
    document: when the object at the path has [name] and [color] as
    strings and the rows of the node show them, the inputs are
    initialised with these two strings, and [save] with them writes
    back the very document it parsed. *)
Theorem save_initial_inputs_noop (JSON_parse : string → option tree)
    (JSON_print : tree → string) (persists : string → bool) (st : Store)
    (selected : NodeData) (doc : tree) (tfs : list (string * tree)) (n c : string) :
  let path := default [] (node_path selected) in
  JSON_parse (contents st) = Some doc → is_json doc = true →
  Tree.getAtPath doc path = TNode (NObj tfs) →
  fields_get "name" tfs = Some (TStr n) → fields_get "color" tfs = Some (TStr c) →
  row_value <$> (node_text selected ≫= find_row "name") = Some (VStr n) →
  row_value <$> (node_text selected ≫= find_row "color") = Some (VStr c) →
  persists (JSON_print doc) = true →
  initial_inputs (Some selected) = Some (n, c) ∧
  let run := save JSON_parse JSON_print persists (Some selected) n c st in
  run.1 = Ok () ∧ contents run.2 = JSON_print doc.
Proof.
  intros path Hparse Hjson Hcur Hn Hc Hrn Hrc Hp. split.
  - unfold initial_inputs. by rewrite (input_of_string _ n Hrn), (input_of_string _ c Hrc).
  - cbn zeta.
    destruct (save_run JSON_parse JSON_print persists st selected n c doc Hparse)
      as (h' & rf & Hrun & _).
    { left. fold path. by rewrite Hcur. }
    cbn zeta in Hrun. rewrite (saved_document_id _ _ _ _ tfs) in Hrun by done.
    by rewrite Hrun, Hp.
Qed.

Lemma save_initial_inputs_noop_witness :
  initial_inputs (Some (node_user [row_name "Alice"; row_tags; row_color "red"]))
    = Some ("Alice", "red") ∧
  let run := save (λ _, Some doc_Alice) (λ _, "out") (λ _, true)
               (Some (node_user [row_name "Alice"; row_tags; row_color "red"]))
               "Alice" "red" store_Bob in
  run.1 = Ok () ∧ contents run.2 = "out".
Proof.
  apply (save_initial_inputs_noop (λ _, Some doc_Alice) (λ _, "out") (λ _, true) store_Bob
           (node_user [row_name "Alice"; row_tags; row_color "red"]) doc_Alice
           [("name", TStr "Alice"); ("tags", TNode (NArr [TStr "x"] [])); ("color", TStr "red")]
           "Alice" "red").
  - reflexivity.
  - reflexivity.
  - reflexivity.
  - reflexivity.
  - reflexivity.
  - reflexivity.
  - reflexivity.
  - reflexivity.
Defined.

(** X15. Saving without typing is not always a no-op.  When the object
    at the path has no [color] and the node shows no row for it, the
    form opens with an empty color, and [save] then adds the key
    [color] with the empty string, as the last key of the object. *)
Theorem save_initial_inputs_adds_color (JSON_parse : string → option tree)
    (JSON_print : tree → string) (persists : string → bool) (st : Store)
    (selected : NodeData) (doc : tree) (tfs : list (string * tree)) (n c : string) :
  let path := default [] (node_path selected) in
  let newdoc := saved_document doc selected n c in
  JSON_parse (contents st) = Some doc →
  Tree.getAtPath doc path = TNode (NObj tfs) →
  fields_get "color" tfs = None →
  node_text selected ≫= find_row "color" = None →
  initial_inputs (Some selected) = Some (n, c) →
  persists (JSON_print newdoc) = true →
  let run := save JSON_parse JSON_print persists (Some selected) n c st in
  c = "" ∧
  contents run.2 = JSON_print newdoc ∧
  Tree.getAtPath newdoc path =
    TNode (NObj (fields_put "name" (TStr n) tfs ++ [("color", TStr "")])).
Proof.
  intros path newdoc Hparse Hcur Hnc Hrc Hinit Hp. cbn zeta.
  assert (c = "") as ->.
  { unfold initial_inputs in Hinit. rewrite Hrc in Hinit. cbn in Hinit.
    destruct (input_of _); cbn in Hinit; congruence. }
  split; [done|].
  destruct (save_run JSON_parse JSON_print persists st selected n "" doc Hparse)
    as (h' & rf & Hrun & _).
  { left. fold path. by rewrite Hcur. }
  cbn zeta in Hrun. fold newdoc in Hrun. rewrite Hrun, Hp. split; [done|].
  unfold newdoc. rewrite saved_document_at_path. fold path. rewrite Hcur.
  cbn [base_of]. unfold edited. do 2 f_equal.
  unfold fields_put at 1.
  assert (fields_has "color" (fields_put "name" (TStr n) tfs) = false) as ->.
  { rewrite fields_has_put_ne by done. by apply fields_has_false. }
  done.
Qed.

Lemma save_initial_inputs_adds_color_witness :
  let run := save (λ _, Some doc_Bob) (λ _, "out") (λ _, true)
               (Some (node_user [row_name "Bob"; row_tags])) "Bob" "" store_Bob in
  "" = "" ∧
  contents run.2 = "out" ∧
  Tree.getAtPath (saved_document doc_Bob (node_user [row_name "Bob"; row_tags]) "Bob" "")
    [SStr "user"] =
    TNode (NObj (fields_put "name" (TStr "Bob")
                   [("name", TStr "Bob"); ("tags", TNode (NArr [TStr "x"] []))]
                 ++ [("color", TStr "")])).
Proof.
  apply (save_initial_inputs_adds_color (λ _, Some doc_Bob) (λ _, "out") (λ _, true) store_Bob
           (node_user [row_name "Bob"; row_tags]) doc_Bob
           [("name", TStr "Bob"); ("tags", TNode (NArr [TStr "x"] []))] "Bob" "").
  - reflexivity.
  - reflexivity.
  - reflexivity.
  - reflexivity.
  - reflexivity.
  - reflexivity.
Defined.

(** X16. Saving twice is saving once, for a node whose path resolves
    to an object of the document, or has plain keys with rows that hold
    primitives under plain keys.  When the first [save] went through and
    the text it wrote parses back to the document it stood for, a second
    [save] of the node it left selected, with the same inputs, goes
    through as well and writes the same text. *)
Theorem save_twice (JSON_parse : string → option tree)
    (JSON_print : tree → string) (persists : string → bool) (st : Store)
    (selected : NodeData) (name color : string) (doc : tree) :
  let newdoc := saved_document doc selected name color in
  JSON_parse (contents st) = Some doc →
  node_in_model doc selected = true →
  persists (JSON_print newdoc) = true →
  JSON_parse (JSON_print newdoc) = Some newdoc →
  let run1 := save JSON_parse JSON_print persists (Some selected) name color st in
  let run2 := save JSON_parse JSON_print persists (selectedNode run1.2) name color run1.2 in
  run1.1 = Ok () ∧ run2.1 = Ok () ∧
  contents run1.2 = JSON_print newdoc ∧
  contents run2.2 = JSON_print newdoc ∧
  visible run2.2 = visible run1.2.
Proof.
  intros newdoc Hparse Hrows%node_in_model_run Hp Hback. cbn zeta.
  destruct (save_run JSON_parse JSON_print persists st selected name color doc Hparse Hrows)
    as (h1 & rf1 & Hrun1 & _).
  cbn zeta in Hrun1. fold newdoc in Hrun1. rewrite Hp in Hrun1. rewrite Hrun1.
  cbn [fst snd selectedNode contents visible].
  match goal with
  | |- context [save _ _ _ (Some ?nd) _ _ ?s] => set (node' := nd); set (st1 := s)
  end.
  destruct (save_run JSON_parse JSON_print persists st1 node' name color newdoc Hback)
    as (h2 & rf2 & Hrun2 & _).
  { left. cbn [node' node_path]. unfold newdoc. by rewrite saved_document_at_path. }
  cbn zeta in Hrun2.
  assert (saved_document newdoc node' name color = newdoc) as E
    by apply saved_document_twice.
  rewrite E, Hp in Hrun2. subst st1 node'. rewrite Hrun2.
  cbn [fst snd contents visible]. split_and!; try done.
  rewrite (fields_put_id "NodeEditModal" false).
  - apply fields_put_id, fields_get_put_eq.
  - rewrite fields_get_put_ne by done. apply fields_get_put_eq.
Qed.

Lemma save_twice_witness :
  let run1 := save parse_Bob_then_Alice (λ _, "out") (λ _, true)
                (Some (node_user [row_name "Bob"; row_tags])) "Alice" "red" store_Bob in
  let run2 := save parse_Bob_then_Alice (λ _, "out") (λ _, true)
                (selectedNode run1.2) "Alice" "red" run1.2 in
  run1.1 = Ok () ∧ run2.1 = Ok () ∧
  contents run1.2 = "out" ∧ contents run2.2 = "out" ∧
  visible run2.2 = visible run1.2.
Proof.
  apply (save_twice parse_Bob_then_Alice (λ _, "out") (λ _, true) store_Bob
           (node_user [row_name "Bob"; row_tags]) "Alice" "red" doc_Bob).
  - reflexivity.
  - reflexivity.
  - reflexivity.
  - reflexivity.
Defined.

(** X17. Refreshing the rows is idempotent: rows already refreshed
    from a replacement come out of a second refresh as they are. *)
Theorem updatedText_idempotent (replacement : list (string * val)) (rows : list NodeRow) :
  updatedText_of replacement (updatedText_of replacement rows) =
    updatedText_of replacement rows.
Proof.
  unfold updatedText_of. rewrite <- list_fmap_compose.
  apply list_fmap_ext. intros i row _. apply update_row_idem.
Qed.




